(** * Eigen STL-style iterators (Eigen/src/Core/StlIterators.h)

    A shallow embedding of the iterator classes of StlIterators.h and of the
    entry points [DenseBase::begin]/[end] and [SubVectorsProxy], followed by
    the properties of the iteration contract.

    Conventions.
    - [Index] is [std::ptrdiff_t] and a [Scalar*] is an address counted in
      elements, so that [p + n] is the address [p + n] and [p - q] the
      number of elements between them.  The modules [IndexedBased] and
      [PointerBased] give the effect of each operator in exact integer
      arithmetic: what the operator computes as long as no [Index] overflows
      and no pointer leaves its array.  The modules [IndexedChecked] and
      [PointerChecked] put each operator under these conditions, on a
      64-bit target: outside them the call is undefined.
    - A call that can halt (a failing [eigen_assert]) or has no defined
      meaning (an integer division by zero, a null dereference) returns in
      [run]. *)

From Stdlib Require Import ZArith List Bool Lia.
Import ListNotations.
Local Open Scope Z_scope.

(** ** The C++ notions the header relies on *)

Module Cxx.

Definition Index := Z.
Definition address := Z.

(** [eigen_assert] is active in debug builds and compiled out otherwise. *)
Variant BuildMode := DebugBuild | ReleaseBuild.

Variant run (A : Type) : Type :=
| Done (a : A)
| AssertionFailed
| UndefinedBehaviour.

Arguments Done {A} a.
Arguments AssertionFailed {A}.
Arguments UndefinedBehaviour {A}.

Definition map {A B} (f : A -> B) (r : run A) : run B :=
  match r with
  | Done a => Done (f a)
  | AssertionFailed => AssertionFailed
  | UndefinedBehaviour => UndefinedBehaviour
  end.

(** Modelled from the spec: the macro [eigen_assert] (Macros.h is not part of
    the sources at hand).  "Signaled via an assertion that halts execution in
    debug configurations; in release configurations the check is compiled
    out": the statements after the assertion, [k], run unconditionally in a
    release build. *)
Definition eigen_assert {A} (b : BuildMode) (cond : bool) (k : run A) : run A :=
  match b with
  | DebugBuild => if cond then k else AssertionFailed
  | ReleaseBuild => k
  end.

(** [internal::conditional<c, X, Y>::type]. *)
Definition conditional {A} (c : bool) (x y : A) : A := if c then x else y.

(** Integer division [a / b]: truncation towards zero, undefined for [b = 0]. *)
Definition div (a b : Index) : run Index :=
  if b =? 0 then UndefinedBehaviour else Done (a ÷ b).

(** What a call leaves behind: the state of the iterator it was applied to
    once the call is over, and the value it returned.  A member that takes
    its operand by const reference leaves [operand] as it found it. *)
Record effect (S R : Type) : Type := {
  operand : S;
  returned : R
}.

Arguments operand {S R} e.
Arguments returned {S R} e.

End Cxx.

Import Cxx.

(** ** Dense expressions, as far as the iterators consume them *)

Module Expr.

(** The form in which an element comes back from an access: a reference to
    a memory cell, or a value (a temporary copy). *)
Variant access (Scalar : Type) : Type :=
| lvalue (a : address)
| prvalue (v : Scalar).

Arguments lvalue {Scalar} a.
Arguments prvalue {Scalar} v.

(** The three shapes the [reference] typedefs of the iterators can take. *)
Variant reference_type :=
| value_type_ref          (* value_type&        : writable reference  *)
| const_value_type_ref    (* const value_type&  : read-only reference *)
| const_value_type.       (* const value_type   : read-only copy      *)

(** Compile-time facts about an expression type [XprType]: whether the type
    is const-qualified, and the two flag bits of [internal::traits<XprType>::Flags]
    that the header looks at. *)
Record XprTraits := {
  is_const : bool;
  LvalueBit : bool;
  DirectAccessBit : bool
}.

(** Modelled from the spec: [internal::is_lvalue<XprType>::value] (XprHelper.h
    is not part of the sources at hand), the mutability classification: the
    expression "is mutable and directly addressable element-wise", that is
    the type is not const and its coefficients can be referred to one by one. *)
Definition is_lvalue (T : XprTraits) : bool := negb (is_const T) && LvalueBit T.

Variant DirectionType := Vertical | Horizontal.

Section WithScalar.

Variable Scalar : Type.

Definition memory := address -> Scalar.

(** Lvalue-to-rvalue conversion. *)
Definition read (m : memory) (x : access Scalar) : Scalar :=
  match x with
  | lvalue a => m a
  | prvalue v => v
  end.

(** An expression instance.  [this] is its address (its identity); the other
    fields are the members of the expression interface called by the
    iterators: [size()], [rows()], [cols()], [data()], [innerStride()], the
    read-only and the writable by-index access behind [operator()(Index)],
    and the two-index read access. *)
Record Xpr := {
  this : address;
  traits : XprTraits;
  size : Index;
  rows : Index;
  cols : Index;
  data : address;
  innerStride : Index;
  coeff : memory -> Index -> Scalar;
  coeffRef : Index -> address;
  coeff2 : memory -> Index -> Index -> Scalar
}.

(** Modelled from the spec: [XprType::operator()(Index)] as overload
    resolution picks it on an [XprType&]: "by-index access, with mutability
    reflected in the return form".  An lvalue expression answers with a
    reference to the element, any other with its value. *)
Definition call (X : Xpr) (m : memory) (k : Index) : access Scalar :=
  if is_lvalue (traits X) then lvalue (coeffRef X k) else prvalue (coeff X m k).

(** The element value at logical index [k]. *)
Definition elementAt (m : memory) (X : Xpr) (k : Index) : Scalar :=
  read m (call X m k).

(** What the capability flag [DirectAccessBit] promises: the elements form a
    strided array starting at [data()], with step [innerStride()]. *)
Definition direct_access (m : memory) (X : Xpr) : Prop :=
  DirectAccessBit (traits X) = true /\
  forall k, 0 <= k < size X ->
    elementAt m X k = m (data X + k * innerStride X).

(** A pointer to an expression, [XprType*]. *)
Variant xpr_ptr :=
| null
| addr_of (X : Xpr).

(** [p == q] on expression pointers compares addresses. *)
Definition ptr_eqb (p q : xpr_ptr) : bool :=
  match p, q with
  | null, null => true
  | addr_of X, addr_of Y => this X =? this Y
  | _, _ => false
  end.

(** A row or column view of a two-dimensional expression: the block keeps
    its parent and forwards element access to it. *)
Record SubVector := {
  parent : Xpr;
  direction : DirectionType;
  position : Index
}.

Definition sub_size (v : SubVector) : Index :=
  match direction v with
  | Vertical => rows (parent v)
  | Horizontal => cols (parent v)
  end.

Definition sub_coeff (m : memory) (v : SubVector) (j : Index) : Scalar :=
  match direction v with
  | Vertical => coeff2 (parent v) m j (position v)
  | Horizontal => coeff2 (parent v) m (position v) j
  end.

(** Modelled from the spec: [DenseBase::subVector<Direction>(Index)]
    (DenseBase.h is not part of the sources at hand), the operation that
    "carves out the k-th row or column view".  [Vertical] selects columns
    ([ColXpr]) and [Horizontal] rows ([RowXpr]), as the typedefs of
    [subvector_stl_iterator] have it. *)
Definition subVector (d : DirectionType) (X : Xpr) (k : Index) : SubVector :=
  {| parent := X; direction := d; position := k |}.

(** Modelled from the spec: [DenseBase::subVectors<Direction>()], "the
    expression's row count (RowWise) or column count (ColumnWise)". *)
Definition subVectors (d : DirectionType) (X : Xpr) : Index :=
  match d with
  | Vertical => cols X
  | Horizontal => rows X
  end.

End WithScalar.

Arguments read {Scalar} m x.
Arguments this {Scalar} x.
Arguments traits {Scalar} x.
Arguments size {Scalar} x.
Arguments rows {Scalar} x.
Arguments cols {Scalar} x.
Arguments data {Scalar} x.
Arguments innerStride {Scalar} x.
Arguments coeff {Scalar} x m k.
Arguments coeffRef {Scalar} x k.
Arguments coeff2 {Scalar} x m i j.
Arguments call {Scalar} X m k.
Arguments elementAt {Scalar} m X k.
Arguments direct_access {Scalar} m X.
Arguments null {Scalar}.
Arguments addr_of {Scalar} X.
Arguments ptr_eqb {Scalar} p q.
Arguments parent {Scalar} s.
Arguments direction {Scalar} s.
Arguments position {Scalar} s.
Arguments sub_size {Scalar} v.
Arguments sub_coeff {Scalar} m v j.
Arguments subVector {Scalar} d X k.
Arguments subVectors {Scalar} d X.

End Expr.

Import Expr.

(** ** [internal::indexed_based_stl_iterator_base] *)

Module IndexedBased.

Section WithScalar.

Variable Scalar : Type.

(** The two data members of the class.  The CRTP parameter [Derived] adds
    no member of its own in either derived class, so [derived()] is the
    object itself. *)
Record indexed_based_stl_iterator_base := {
  mp_xpr : xpr_ptr Scalar;
  m_index : Index
}.

Local Abbreviation It := indexed_based_stl_iterator_base.

(** [indexed_based_stl_iterator_base() : mp_xpr(0), m_index(0)] *)
Definition default_ctor : It :=
  {| mp_xpr := null; m_index := 0 |}.

(** [indexed_based_stl_iterator_base(XprType& xpr, Index index)] *)
Definition ctor (xpr : Xpr Scalar) (index : Index) : It :=
  {| mp_xpr := addr_of xpr; m_index := index |}.

(** [Derived& operator+=(Index b) { m_index += b; return derived(); }] *)
Definition operator_add_assign (it : It) (b : Index) : effect It It :=
  let it' := {| mp_xpr := mp_xpr it; m_index := m_index it + b |} in
  {| operand := it'; returned := it' |}.

(** [Derived& operator-=(Index b) { m_index -= b; return derived(); }] *)
Definition operator_sub_assign (it : It) (b : Index) : effect It It :=
  let it' := {| mp_xpr := mp_xpr it; m_index := m_index it - b |} in
  {| operand := it'; returned := it' |}.

(** [Derived& operator++() { ++m_index; return derived(); }] *)
Definition operator_inc (it : It) : effect It It :=
  let it' := {| mp_xpr := mp_xpr it; m_index := m_index it + 1 |} in
  {| operand := it'; returned := it' |}.

(** [Derived& operator--() { --m_index; return derived(); }] *)
Definition operator_dec (it : It) : effect It It :=
  let it' := {| mp_xpr := mp_xpr it; m_index := m_index it - 1 |} in
  {| operand := it'; returned := it' |}.

(** [Derived operator++(int) { Derived prev(derived()); operator++(); return prev; }] *)
Definition operator_post_inc (it : It) : effect It It :=
  let prev := it in
  let it' := operand (operator_inc it) in
  {| operand := it'; returned := prev |}.

(** [Derived operator--(int) { Derived prev(derived()); operator--(); return prev; }] *)
Definition operator_post_dec (it : It) : effect It It :=
  let prev := it in
  let it' := operand (operator_dec it) in
  {| operand := it'; returned := prev |}.

(** [friend Derived operator+(const base& a, Index b)
      { Derived ret(a.derived()); ret += b; return ret; }] *)
Definition operator_plus (a : It) (b : Index) : effect It It :=
  let ret := a in
  let ret := operand (operator_add_assign ret b) in
  {| operand := a; returned := ret |}.

(** [friend Derived operator-(const base& a, Index b)
      { Derived ret(a.derived()); ret -= b; return ret; }] *)
Definition operator_minus (a : It) (b : Index) : effect It It :=
  let ret := a in
  let ret := operand (operator_sub_assign ret b) in
  {| operand := a; returned := ret |}.

(** [friend Derived operator+(Index a, const base& b)
      { Derived ret(b.derived()); ret += a; return ret; }] *)
Definition operator_plus_left (a : Index) (b : It) : effect It It :=
  let ret := b in
  let ret := operand (operator_add_assign ret a) in
  {| operand := b; returned := ret |}.

(** [friend Derived operator-(Index a, const base& b)
      { Derived ret(b.derived()); ret -= a; return ret; }] *)
Definition operator_minus_left (a : Index) (b : It) : effect It It :=
  let ret := b in
  let ret := operand (operator_sub_assign ret a) in
  {| operand := b; returned := ret |}.

(** [difference_type operator-(const base& other) const
      { eigen_assert(mp_xpr == other.mp_xpr); return m_index - other.m_index; }] *)
Definition operator_diff (b : BuildMode) (it other : It) : run Index :=
  eigen_assert b (ptr_eqb (mp_xpr it) (mp_xpr other))
    (Done (m_index it - m_index other)).

(** The six comparisons, each
    [{ eigen_assert(mp_xpr == other.mp_xpr); return m_index OP other.m_index; }] *)
Definition operator_eq (b : BuildMode) (it other : It) : run bool :=
  eigen_assert b (ptr_eqb (mp_xpr it) (mp_xpr other))
    (Done (m_index it =? m_index other)).

Definition operator_ne (b : BuildMode) (it other : It) : run bool :=
  eigen_assert b (ptr_eqb (mp_xpr it) (mp_xpr other))
    (Done (negb (m_index it =? m_index other))).

Definition operator_lt (b : BuildMode) (it other : It) : run bool :=
  eigen_assert b (ptr_eqb (mp_xpr it) (mp_xpr other))
    (Done (m_index it <? m_index other)).

Definition operator_le (b : BuildMode) (it other : It) : run bool :=
  eigen_assert b (ptr_eqb (mp_xpr it) (mp_xpr other))
    (Done (m_index it <=? m_index other)).

Definition operator_gt (b : BuildMode) (it other : It) : run bool :=
  eigen_assert b (ptr_eqb (mp_xpr it) (mp_xpr other))
    (Done (m_index it >? m_index other)).

Definition operator_ge (b : BuildMode) (it other : It) : run bool :=
  eigen_assert b (ptr_eqb (mp_xpr it) (mp_xpr other))
    (Done (m_index it >=? m_index other)).

(** The arithmetic operators, named, so that a sequence of them can be
    replayed on an iterator. *)
Variant arith :=
| PreInc | PreDec | PostInc | PostDec
| AddAssign (n : Index) | SubAssign (n : Index)
| Plus (n : Index) | Minus (n : Index)
| PlusLeft (n : Index) | MinusLeft (n : Index).

Definition apply (op : arith) (it : It) : effect It It :=
  match op with
  | PreInc => operator_inc it
  | PreDec => operator_dec it
  | PostInc => operator_post_inc it
  | PostDec => operator_post_dec it
  | AddAssign n => operator_add_assign it n
  | SubAssign n => operator_sub_assign it n
  | Plus n => operator_plus it n
  | Minus n => operator_minus it n
  | PlusLeft n => operator_plus_left n it
  | MinusLeft n => operator_minus_left n it
  end.

(** Every iterator a program gets hold of when it starts from [it] and
    applies arithmetic operators, to the iterator itself or to iterators
    returned earlier. *)
Inductive derived_from (it : It) : It -> Prop :=
| derived_self : derived_from it it
| derived_operand op j : derived_from it j -> derived_from it (operand (apply op j))
| derived_returned op j : derived_from it j -> derived_from it (returned (apply op j)).

End WithScalar.

Arguments mp_xpr {Scalar} i.
Arguments m_index {Scalar} i.
Arguments default_ctor {Scalar}.
Arguments ctor {Scalar} xpr index.
Arguments operator_add_assign {Scalar} it b.
Arguments operator_sub_assign {Scalar} it b.
Arguments operator_inc {Scalar} it.
Arguments operator_dec {Scalar} it.
Arguments operator_post_inc {Scalar} it.
Arguments operator_post_dec {Scalar} it.
Arguments operator_plus {Scalar} a b.
Arguments operator_minus {Scalar} a b.
Arguments operator_plus_left {Scalar} a b.
Arguments operator_minus_left {Scalar} a b.
Arguments operator_diff {Scalar} b it other.
Arguments operator_eq {Scalar} b it other.
Arguments operator_ne {Scalar} b it other.
Arguments operator_lt {Scalar} b it other.
Arguments operator_le {Scalar} b it other.
Arguments operator_gt {Scalar} b it other.
Arguments operator_ge {Scalar} b it other.
Arguments apply {Scalar} op it.
Arguments derived_from {Scalar} it _.

End IndexedBased.

(** ** [internal::pointer_based_stl_iterator] *)

Module PointerBased.

(** [m_incr] is a [variable_if_dynamic<Index, InnerStrideAtCompileTime>]:
    the stride, whether it is known at compile time or not; [m_incr.value()]
    is the field itself. *)
Record pointer_based_stl_iterator := {
  m_ptr : address;
  m_incr : Index
}.

Local Abbreviation It := pointer_based_stl_iterator.

(** [typedef conditional<is_lvalue, value_type&, const value_type&>::type reference] *)
Definition reference (T : XprTraits) : reference_type :=
  conditional (is_lvalue T) value_type_ref const_value_type_ref.

(** [pointer_based_stl_iterator(XprType& xpr, Index index) : m_incr(xpr.innerStride())
      { m_ptr = xpr.data() + index * m_incr.value(); }] *)
Definition ctor {Scalar} (xpr : Xpr Scalar) (index : Index) : It :=
  let incr := innerStride xpr in
  {| m_ptr := data xpr + index * incr; m_incr := incr |}.

(** [reference operator*() const { return *m_ptr; }] *)
Definition operator_star {Scalar} (it : It) : access Scalar :=
  lvalue (m_ptr it).

(** [reference operator[](Index i) const { return *(m_ptr+i*m_incr.value()); }] *)
Definition operator_index {Scalar} (it : It) (i : Index) : access Scalar :=
  lvalue (m_ptr it + i * m_incr it).

(** [pointer operator->() const { return m_ptr; }] *)
Definition operator_arrow (it : It) : address := m_ptr it.

(** [operator+=(Index b) { m_ptr += b*m_incr.value(); return *this; }] *)
Definition operator_add_assign (it : It) (b : Index) : effect It It :=
  let it' := {| m_ptr := m_ptr it + b * m_incr it; m_incr := m_incr it |} in
  {| operand := it'; returned := it' |}.

(** [operator-=(Index b) { m_ptr -= b*m_incr.value(); return *this; }] *)
Definition operator_sub_assign (it : It) (b : Index) : effect It It :=
  let it' := {| m_ptr := m_ptr it - b * m_incr it; m_incr := m_incr it |} in
  {| operand := it'; returned := it' |}.

(** [operator++() { m_ptr += m_incr.value(); return *this; }] *)
Definition operator_inc (it : It) : effect It It :=
  let it' := {| m_ptr := m_ptr it + m_incr it; m_incr := m_incr it |} in
  {| operand := it'; returned := it' |}.

(** [operator--() { m_ptr -= m_incr.value(); return *this; }] *)
Definition operator_dec (it : It) : effect It It :=
  let it' := {| m_ptr := m_ptr it - m_incr it; m_incr := m_incr it |} in
  {| operand := it'; returned := it' |}.

(** [operator++(int) { pointer_based_stl_iterator prev( *this ); operator++(); return prev; }] *)
Definition operator_post_inc (it : It) : effect It It :=
  let prev := it in
  let it' := operand (operator_inc it) in
  {| operand := it'; returned := prev |}.

(** [operator--(int) { pointer_based_stl_iterator prev( *this ); operator--(); return prev; }] *)
Definition operator_post_dec (it : It) : effect It It :=
  let prev := it in
  let it' := operand (operator_dec it) in
  {| operand := it'; returned := prev |}.

(** [friend operator+(const It& a, Index b) { It ret(a); ret += b; return ret; }] *)
Definition operator_plus (a : It) (b : Index) : effect It It :=
  let ret := a in
  let ret := operand (operator_add_assign ret b) in
  {| operand := a; returned := ret |}.

(** [friend operator-(const It& a, Index b) { It ret(a); ret -= b; return ret; }] *)
Definition operator_minus (a : It) (b : Index) : effect It It :=
  let ret := a in
  let ret := operand (operator_sub_assign ret b) in
  {| operand := a; returned := ret |}.

(** [friend operator+(Index a, const It& b) { It ret(b); ret += a; return ret; }] *)
Definition operator_plus_left (a : Index) (b : It) : effect It It :=
  let ret := b in
  let ret := operand (operator_add_assign ret a) in
  {| operand := b; returned := ret |}.

(** [friend operator-(Index a, const It& b) { It ret(b); ret -= a; return ret; }] *)
Definition operator_minus_left (a : Index) (b : It) : effect It It :=
  let ret := b in
  let ret := operand (operator_sub_assign ret a) in
  {| operand := b; returned := ret |}.

(** [difference_type operator-(const It& other) const
      { return (m_ptr - other.m_ptr)/m_incr.value(); }]
    There is no [eigen_assert] here, hence no build mode. *)
Definition operator_diff (it other : It) : run Index :=
  div (m_ptr it - m_ptr other) (m_incr it).

(** The six comparisons, each [{ return m_ptr OP other.m_ptr; }]. *)
Definition operator_eq (it other : It) : run bool :=
  Done (m_ptr it =? m_ptr other).

Definition operator_ne (it other : It) : run bool :=
  Done (negb (m_ptr it =? m_ptr other)).

Definition operator_lt (it other : It) : run bool :=
  Done (m_ptr it <? m_ptr other).

Definition operator_le (it other : It) : run bool :=
  Done (m_ptr it <=? m_ptr other).

Definition operator_gt (it other : It) : run bool :=
  Done (m_ptr it >? m_ptr other).

Definition operator_ge (it other : It) : run bool :=
  Done (m_ptr it >=? m_ptr other).

End PointerBased.

(** ** [internal::generic_randaccess_stl_iterator] *)

Module GenericRandAccess.

(** The class derives from [indexed_based_stl_iterator_base] and adds no
    data member. *)
Definition generic_randaccess_stl_iterator (Scalar : Type) : Type :=
  IndexedBased.indexed_based_stl_iterator_base Scalar.

(** [has_direct_access = (traits<XprType>::Flags & DirectAccessBit) ? 1 : 0] *)
Definition has_direct_access (T : XprTraits) : bool := DirectAccessBit T.

(** [typedef const value_type read_only_ref_t;]  The alternative that looked
    at [has_direct_access] is commented out in the source. *)
Definition read_only_ref_t : reference_type := const_value_type.

(** [typedef conditional<is_lvalue, value_type&, read_only_ref_t>::type reference] *)
Definition reference (T : XprTraits) : reference_type :=
  conditional (is_lvalue T) value_type_ref read_only_ref_t.

(** [generic_randaccess_stl_iterator(XprType& xpr, Index index) : Base(xpr,index)] *)
Definition ctor {Scalar} (xpr : Xpr Scalar) (index : Index)
  : generic_randaccess_stl_iterator Scalar :=
  IndexedBased.ctor xpr index.

(** [reference operator*() const { return ( *mp_xpr )(m_index); }] *)
Definition operator_star {Scalar} (m : memory Scalar)
  (it : generic_randaccess_stl_iterator Scalar) : run (access Scalar) :=
  match IndexedBased.mp_xpr it with
  | null => UndefinedBehaviour
  | addr_of X => Done (call X m (IndexedBased.m_index it))
  end.

(** [reference operator[](Index i) const { return ( *mp_xpr )(m_index+i); }] *)
Definition operator_index {Scalar} (m : memory Scalar)
  (it : generic_randaccess_stl_iterator Scalar) (i : Index) : run (access Scalar) :=
  match IndexedBased.mp_xpr it with
  | null => UndefinedBehaviour
  | addr_of X => Done (call X m (IndexedBased.m_index it + i))
  end.

End GenericRandAccess.

(** ** [internal::subvector_stl_iterator] *)

Module SubVectorIter.

Definition subvector_stl_iterator (Scalar : Type) (Direction : DirectionType) : Type :=
  IndexedBased.indexed_based_stl_iterator_base Scalar.

Variant view_type := ColXpr | RowXpr | ConstColXpr | ConstRowXpr.

Definition is_vertical (d : DirectionType) : bool :=
  match d with Vertical => true | Horizontal => false end.

(** [conditional<Direction==Vertical, ColXpr, RowXpr>::type SubVectorType] *)
Definition SubVectorType (d : DirectionType) : view_type :=
  conditional (is_vertical d) ColXpr RowXpr.

(** [conditional<Direction==Vertical, ConstColXpr, ConstRowXpr>::type ConstSubVectorType] *)
Definition ConstSubVectorType (d : DirectionType) : view_type :=
  conditional (is_vertical d) ConstColXpr ConstRowXpr.

(** [conditional<is_lvalue, SubVectorType, ConstSubVectorType>::type value_type] *)
Definition value_type (T : XprTraits) (d : DirectionType) : view_type :=
  conditional (is_lvalue T) (SubVectorType d) (ConstSubVectorType d).

(** [subvector_stl_iterator(XprType& xpr, Index index) : Base(xpr,index)] *)
Definition ctor {Scalar} (d : DirectionType) (xpr : Xpr Scalar) (index : Index)
  : subvector_stl_iterator Scalar d :=
  IndexedBased.ctor xpr index.

(** [reference operator*() const
      { return ( *mp_xpr ).template subVector<Direction>(m_index); }] *)
Definition operator_star {Scalar} {d : DirectionType}
  (it : subvector_stl_iterator Scalar d) : run (SubVector Scalar) :=
  match IndexedBased.mp_xpr it with
  | null => UndefinedBehaviour
  | addr_of X => Done (subVector d X (IndexedBased.m_index it))
  end.

(** [reference operator[](Index i) const
      { return ( *mp_xpr ).template subVector<Direction>(m_index+i); }] *)
Definition operator_index {Scalar} {d : DirectionType}
  (it : subvector_stl_iterator Scalar d) (i : Index) : run (SubVector Scalar) :=
  match IndexedBased.mp_xpr it with
  | null => UndefinedBehaviour
  | addr_of X => Done (subVector d X (IndexedBased.m_index it + i))
  end.

End SubVectorIter.

(** ** [DenseBase::begin], [end], [cbegin], [cend] *)

Module DenseBase.

(** [DenseBase<Derived>::iterator] is a typedef resolved outside this header;
    the entry points only construct it from [(derived(), index)].  An
    iterator class is therefore anything with that constructor. *)
Class Iterator (Scalar : Type) (It : Type) : Type :=
  construct : Xpr Scalar -> Index -> It.

#[export] Instance pointer_based (Scalar : Type)
  : Iterator Scalar PointerBased.pointer_based_stl_iterator :=
  PointerBased.ctor.

#[export] Instance generic_randaccess (Scalar : Type)
  : Iterator Scalar (GenericRandAccess.generic_randaccess_stl_iterator Scalar) :=
  GenericRandAccess.ctor.

(** [const Derived]: the same instance, seen through a const-qualified type. *)
Definition add_const {Scalar} (X : Xpr Scalar) : Xpr Scalar :=
  {| this := this X;
     traits := {| is_const := true;
                  LvalueBit := LvalueBit (traits X);
                  DirectAccessBit := DirectAccessBit (traits X) |};
     size := size X; rows := rows X; cols := cols X;
     data := data X; innerStride := innerStride X;
     coeff := coeff X; coeffRef := coeffRef X; coeff2 := coeff2 X |}.

(** [begin() { return iterator(derived(), 0); }] *)
Definition begin {Scalar} (It : Type) `{Iterator Scalar It} (X : Xpr Scalar) : It :=
  construct X 0.

(** [end() { return iterator(derived(), size()); }] *)
Definition end_ {Scalar} (It : Type) `{Iterator Scalar It} (X : Xpr Scalar) : It :=
  construct X (size X).

(** [cbegin() const { return const_iterator(derived(), 0); }] *)
Definition cbegin {Scalar} (It : Type) `{Iterator Scalar It} (X : Xpr Scalar) : It :=
  construct (add_const X) 0.

(** [cend() const { return const_iterator(derived(), size()); }] *)
Definition cend {Scalar} (It : Type) `{Iterator Scalar It} (X : Xpr Scalar) : It :=
  construct (add_const X) (size (add_const X)).

End DenseBase.

(** ** [SubVectorsProxy], [allRows], [allCols] *)

Module Proxy.

Import SubVectorIter.

(** [XprType& m_xpr] *)
Record SubVectorsProxy (Scalar : Type) (Direction : DirectionType) : Type := {
  m_xpr : Xpr Scalar
}.

Arguments m_xpr {Scalar Direction} s.

(** [iterator begin() const { return iterator(m_xpr, 0); }] *)
Definition begin {Scalar d} (P : SubVectorsProxy Scalar d)
  : subvector_stl_iterator Scalar d :=
  ctor d (m_xpr P) 0.

(** [iterator end() const
      { return iterator(m_xpr, m_xpr.template subVectors<Direction>()); }] *)
Definition end_ {Scalar d} (P : SubVectorsProxy Scalar d)
  : subvector_stl_iterator Scalar d :=
  ctor d (m_xpr P) (subVectors d (m_xpr P)).

(** [const_iterator cbegin() const { return const_iterator(m_xpr, 0); }] *)
Definition cbegin {Scalar d} (P : SubVectorsProxy Scalar d)
  : subvector_stl_iterator Scalar d :=
  ctor d (DenseBase.add_const (m_xpr P)) 0.

(** [const_iterator cend() const
      { return const_iterator(m_xpr, m_xpr.template subVectors<Direction>()); }] *)
Definition cend {Scalar d} (P : SubVectorsProxy Scalar d)
  : subvector_stl_iterator Scalar d :=
  ctor d (DenseBase.add_const (m_xpr P)) (subVectors d (m_xpr P)).

(** [DenseBase::allCols() { return SubVectorsProxy<Derived,Vertical>(derived()); }] *)
Definition allCols {Scalar} (X : Xpr Scalar) : SubVectorsProxy Scalar Vertical :=
  {| m_xpr := X |}.

(** [DenseBase::allRows() { return SubVectorsProxy<Derived,Horizontal>(derived()); }] *)
Definition allRows {Scalar} (X : Xpr Scalar) : SubVectorsProxy Scalar Horizontal :=
  {| m_xpr := X |}.

(** The range-based loop [for (auto v : proxy) out.push_back(v);], spelled
    out as the language defines it:
    [for (it = begin(), last = end(); it != last; ++it) { v = *it; ... }].
    [fuel] bounds the number of tests of the loop condition; [None] means
    the bound was reached before the loop ended. *)
Fixpoint range_for {Scalar d} (fuel : nat) (b : BuildMode)
  (it last : subvector_stl_iterator Scalar d) : option (run (list (SubVector Scalar))) :=
  match fuel with
  | O => None
  | S fuel' =>
    match IndexedBased.operator_ne b it last with
    | Done false => Some (Done [])
    | Done true =>
      match operator_star it with
      | Done v =>
        match range_for fuel' b (operand (IndexedBased.operator_inc it)) last with
        | Some (Done vs) => Some (Done (v :: vs))
        | stopped => stopped
        end
      | AssertionFailed => Some AssertionFailed
      | UndefinedBehaviour => Some UndefinedBehaviour
      end
    | AssertionFailed => Some AssertionFailed
    | UndefinedBehaviour => Some UndefinedBehaviour
    end
  end.

(** The views a whole traversal of the proxy collects. *)
Definition views {Scalar d} (fuel : nat) (b : BuildMode) (P : SubVectorsProxy Scalar d)
  : option (run (list (SubVector Scalar))) :=
  range_for fuel b (begin P) (end_ P).

End Proxy.

(** ** Concrete expressions over integer scalars *)

Module Examples.

(** A vector mapped onto memory: [n] elements from [base], [step] apart
    (a [Map] with an inner stride).  Its by-index access reads the strided
    array, as [DirectAccessBit] promises. *)
Definition strided (self : address) (n : Index) (base : address) (step : Index)
  : Xpr Z :=
  {| this := self;
     traits := {| is_const := false; LvalueBit := true; DirectAccessBit := true |};
     size := n; rows := n; cols := 1;
     data := base; innerStride := step;
     coeff := fun m k => m (base + k * step);
     coeffRef := fun k => base + k * step;
     coeff2 := fun m i _ => m (base + i * step) |}.

(** A computed vector with no storage: element [k] is [f k]. *)
Definition computed (self : address) (n : Index) (f : Index -> Z) : Xpr Z :=
  {| this := self;
     traits := {| is_const := false; LvalueBit := false; DirectAccessBit := false |};
     size := n; rows := n; cols := 1;
     data := 0; innerStride := 0;
     coeff := fun _ k => f k;
     coeffRef := fun _ => 0;
     coeff2 := fun _ i _ => f i |}.

(** A computed [r] x [c] expression: element [(i, j)] is [f i j]. *)
Definition table (self : address) (r c : Index) (f : Index -> Index -> Z) : Xpr Z :=
  {| this := self;
     traits := {| is_const := false; LvalueBit := false; DirectAccessBit := false |};
     size := r * c; rows := r; cols := c;
     data := 0; innerStride := 0;
     coeff := fun _ k => f k 0;
     coeffRef := fun _ => 0;
     coeff2 := fun _ i j => f i j |}.

(** Memory holding [l] from address [lo] upwards, zero elsewhere. *)
Definition stored (lo : address) (l : list Z) : memory Z :=
  fun a => if (lo <=? a) && (a <? lo + Z.of_nat (length l))
           then nth (Z.to_nat (a - lo)) l 0 else 0.

(** 10, 20, 30, 40 at addresses 100..103, and the vector over them. *)
Definition ascending : memory Z := stored 100 [10; 20; 30; 40].
Definition forward : Xpr Z := strided 1000 4 100 1.

(** The same storage under a second expression instance. *)
Definition forward' : Xpr Z := strided 2000 4 100 1.

(** 40, 30, 20, 10 at addresses 100..103, and the vector that walks them
    downwards from address 103: its elements are 10, 20, 30, 40 in logical
    order. *)
Definition descending : memory Z := stored 100 [40; 30; 20; 10].
Definition backward : Xpr Z := strided 1001 4 103 (-1).

(** A vector whose inner stride is zero: three elements, all of them the
    cell at address 100. *)
Definition broadcast : Xpr Z := strided 1002 3 100 0.

(** Every second cell from address 100. *)
Definition sparse : Xpr Z := strided 1003 2 100 2.

(** The computed vector 10, 20, 30, 40. *)
Definition tens : Xpr Z := computed 1005 4 (fun k => 10 * (k + 1)).

(** The 3 x 2 expression whose element [(i, j)] is [10 * i + j]. *)
Definition grid : Xpr Z := table 1006 3 2 (fun i j => 10 * i + j).

End Examples.

(** ** Machine arithmetic: when the operators are defined *)

Module Machine.

(** The range of [Index] where [std::ptrdiff_t] is 64 bits wide. *)
Definition Index_min : Z := -9223372036854775808.
Definition Index_max : Z := 9223372036854775807.

Definition representable (z : Z) : bool :=
  (Index_min <=? z) && (z <=? Index_max).

(** [a / b] on [Index]: undefined for a zero divisor and for the one
    quotient that does not fit, [Index_min / -1]. *)
Definition div (a b : Index) : run Index :=
  if (b =? 0) || ((a =? Index_min) && (b =? -1))
  then UndefinedBehaviour
  else Done (a ÷ b).

(** An array object: [length] elements of [element_size] bytes each, the
    first one at element address [first]. *)
Record array := {
  first : address;
  length : Index;
  element_size : Z
}.

(** What every array object satisfies: it is no larger than
    [PTRDIFF_MAX] bytes and the byte address one past its end fits a
    64-bit pointer. *)
Definition allocatable (A : array) : bool :=
  (1 <=? element_size A) && (0 <=? first A) && (0 <=? length A) &&
  (length A * element_size A <=? Index_max) &&
  ((first A + length A) * element_size A <? 18446744073709551616).

(** The pointers arithmetic may form in [A]: those to its elements and the
    one past the last. *)
Definition in_bounds (A : array) (p : address) : bool :=
  allocatable A && (first A <=? p) && (p <=? first A + length A).

End Machine.

(** ** The index-based operators on a 64-bit [Index] *)

Module IndexedChecked.

Section WithScalar.

Variable Scalar : Type.

Local Abbreviation It := (IndexedBased.indexed_based_stl_iterator_base Scalar).

(** An update of [m_index] to [next] is defined when [next] is
    representable; the call then has the effect [e]. *)
Definition guard (next : Index) (e : effect It It) : run (effect It It) :=
  if Machine.representable next then Done e else UndefinedBehaviour.

(** [m_index += b] *)
Definition operator_add_assign (it : It) (b : Index) : run (effect It It) :=
  guard (IndexedBased.m_index it + b) (IndexedBased.operator_add_assign it b).

(** [m_index -= b] *)
Definition operator_sub_assign (it : It) (b : Index) : run (effect It It) :=
  guard (IndexedBased.m_index it - b) (IndexedBased.operator_sub_assign it b).

(** [++m_index] *)
Definition operator_inc (it : It) : run (effect It It) :=
  guard (IndexedBased.m_index it + 1) (IndexedBased.operator_inc it).

(** [--m_index] *)
Definition operator_dec (it : It) : run (effect It It) :=
  guard (IndexedBased.m_index it - 1) (IndexedBased.operator_dec it).

(** [operator++(int)], through [operator++()] *)
Definition operator_post_inc (it : It) : run (effect It It) :=
  guard (IndexedBased.m_index it + 1) (IndexedBased.operator_post_inc it).

(** [operator--(int)], through [operator--()] *)
Definition operator_post_dec (it : It) : run (effect It It) :=
  guard (IndexedBased.m_index it - 1) (IndexedBased.operator_post_dec it).

(** [a + b], through [ret += b] *)
Definition operator_plus (a : It) (b : Index) : run (effect It It) :=
  guard (IndexedBased.m_index a + b) (IndexedBased.operator_plus a b).

(** [a - b], through [ret -= b] *)
Definition operator_minus (a : It) (b : Index) : run (effect It It) :=
  guard (IndexedBased.m_index a - b) (IndexedBased.operator_minus a b).

(** [a + b] with the integer on the left, through [ret += a] *)
Definition operator_plus_left (a : Index) (b : It) : run (effect It It) :=
  guard (IndexedBased.m_index b + a) (IndexedBased.operator_plus_left a b).

(** [a - b] with the integer on the left, through [ret -= a] *)
Definition operator_minus_left (a : Index) (b : It) : run (effect It It) :=
  guard (IndexedBased.m_index b - a) (IndexedBased.operator_minus_left a b).

(** [{ eigen_assert(mp_xpr == other.mp_xpr); return m_index - other.m_index; }]:
    once past the assertion, the subtraction is defined when its result
    is representable. *)
Definition operator_diff (b : BuildMode) (it other : It) : run Index :=
  match IndexedBased.operator_diff b it other with
  | Done d => if Machine.representable d then Done d else UndefinedBehaviour
  | AssertionFailed => AssertionFailed
  | UndefinedBehaviour => UndefinedBehaviour
  end.

End WithScalar.

Arguments guard {Scalar} next e.
Arguments operator_add_assign {Scalar} it b.
Arguments operator_sub_assign {Scalar} it b.
Arguments operator_inc {Scalar} it.
Arguments operator_dec {Scalar} it.
Arguments operator_post_inc {Scalar} it.
Arguments operator_post_dec {Scalar} it.
Arguments operator_plus {Scalar} a b.
Arguments operator_minus {Scalar} a b.
Arguments operator_plus_left {Scalar} a b.
Arguments operator_minus_left {Scalar} a b.
Arguments operator_diff {Scalar} b it other.

End IndexedChecked.

(** ** The pointer-based operators on machine pointers *)

Module PointerChecked.

Local Abbreviation It := PointerBased.pointer_based_stl_iterator.

(** Moving [m_ptr] by [offset] elements inside the array [A]: [offset],
    where it is a product of two [Index] values, must be representable,
    and the pointer must start and end within the bounds of [A].  The
    call then has the effect [e]. *)
Definition guard (A : Machine.array) (it : It) (offset : Index)
  (e : effect It It) : run (effect It It) :=
  if Machine.representable offset
     && Machine.in_bounds A (PointerBased.m_ptr it)
     && Machine.in_bounds A (PointerBased.m_ptr it + offset)
  then Done e
  else UndefinedBehaviour.

(** [m_ptr += b*m_incr.value()] *)
Definition operator_add_assign (A : Machine.array) (it : It) (b : Index)
  : run (effect It It) :=
  guard A it (b * PointerBased.m_incr it) (PointerBased.operator_add_assign it b).

(** [m_ptr -= b*m_incr.value()] *)
Definition operator_sub_assign (A : Machine.array) (it : It) (b : Index)
  : run (effect It It) :=
  if Machine.representable (b * PointerBased.m_incr it)
  then guard A it (- (b * PointerBased.m_incr it))
         (PointerBased.operator_sub_assign it b)
  else UndefinedBehaviour.

(** [m_ptr += m_incr.value()] *)
Definition operator_inc (A : Machine.array) (it : It) : run (effect It It) :=
  guard A it (PointerBased.m_incr it) (PointerBased.operator_inc it).

(** [m_ptr -= m_incr.value()] *)
Definition operator_dec (A : Machine.array) (it : It) : run (effect It It) :=
  guard A it (- PointerBased.m_incr it) (PointerBased.operator_dec it).

(** [a + b], through [ret += b] *)
Definition operator_plus (A : Machine.array) (a : It) (b : Index)
  : run (effect It It) :=
  guard A a (b * PointerBased.m_incr a) (PointerBased.operator_plus a b).

(** [a - b], through [ret -= b] *)
Definition operator_minus (A : Machine.array) (a : It) (b : Index)
  : run (effect It It) :=
  if Machine.representable (b * PointerBased.m_incr a)
  then guard A a (- (b * PointerBased.m_incr a)) (PointerBased.operator_minus a b)
  else UndefinedBehaviour.

(** [{ return (m_ptr - other.m_ptr)/m_incr.value(); }]: the subtraction
    needs both pointers within the bounds of one array, the division a
    divisor other than zero. *)
Definition operator_diff (A : Machine.array) (it other : It) : run Index :=
  if Machine.in_bounds A (PointerBased.m_ptr it)
     && Machine.in_bounds A (PointerBased.m_ptr other)
  then Machine.div (PointerBased.m_ptr it - PointerBased.m_ptr other)
                   (PointerBased.m_incr it)
  else UndefinedBehaviour.

End PointerChecked.

(** ** Const entry points, traversal and assignment *)

Module ConstEntry.

(** [const_iterator begin() const { return cbegin(); }] *)
Definition begin_const {Scalar} (It : Type) `{DenseBase.Iterator Scalar It}
  (X : Xpr Scalar) : It :=
  DenseBase.cbegin It X.

(** [const_iterator end() const { return cend(); }] *)
Definition end_const {Scalar} (It : Type) `{DenseBase.Iterator Scalar It}
  (X : Xpr Scalar) : It :=
  DenseBase.cend It X.

(** [DenseBase::allCols() const
      { return SubVectorsProxy<const Derived,Vertical>(derived()); }] *)
Definition allCols_const {Scalar} (X : Xpr Scalar)
  : Proxy.SubVectorsProxy Scalar Vertical :=
  {| Proxy.m_xpr := DenseBase.add_const X |}.

(** [DenseBase::allRows() const
      { return SubVectorsProxy<const Derived,Horizontal>(derived()); }] *)
Definition allRows_const {Scalar} (X : Xpr Scalar)
  : Proxy.SubVectorsProxy Scalar Horizontal :=
  {| Proxy.m_xpr := DenseBase.add_const X |}.

End ConstEntry.

Module Traversal.

Import DenseBase.

(** The loop [for (; it != last; ++it) out.push_back( *it );] over any
    iterator class, given its [operator!=], [operator*] and [operator++].
    [fuel] bounds the number of tests of the loop condition; [None] means
    the bound was reached before the loop ended. *)
Fixpoint loop {It V : Type} (ne : It -> It -> run bool) (star : It -> run V)
  (inc : It -> It) (fuel : nat) (it last : It) : option (run (list V)) :=
  match fuel with
  | O => None
  | S fuel' =>
    match ne it last with
    | Done false => Some (Done [])
    | Done true =>
      match star it with
      | Done v =>
        match loop ne star inc fuel' (inc it) last with
        | Some (Done vs) => Some (Done (v :: vs))
        | stopped => stopped
        end
      | AssertionFailed => Some AssertionFailed
      | UndefinedBehaviour => Some UndefinedBehaviour
      end
    | AssertionFailed => Some AssertionFailed
    | UndefinedBehaviour => Some UndefinedBehaviour
    end
  end.

(** [for (auto it = v.begin(); it != v.end(); ++it) out.push_back( *it );]
    with the pointer-based iterator. *)
Definition pointer_elements {Scalar} (fuel : nat) (X : Xpr Scalar)
  : option (run (list (access Scalar))) :=
  loop PointerBased.operator_ne
       (fun it => Done (PointerBased.operator_star it))
       (fun it => operand (PointerBased.operator_inc it))
       fuel
       (DenseBase.begin PointerBased.pointer_based_stl_iterator X)
       (DenseBase.end_ PointerBased.pointer_based_stl_iterator X).

(** The same loop with the evaluated-index iterator. *)
Definition generic_elements {Scalar} (fuel : nat) (b : BuildMode)
  (m : memory Scalar) (X : Xpr Scalar) : option (run (list (access Scalar))) :=
  loop (IndexedBased.operator_ne b)
       (GenericRandAccess.operator_star m)
       (fun it => operand (IndexedBased.operator_inc it))
       fuel
       (DenseBase.begin (GenericRandAccess.generic_randaccess_stl_iterator Scalar) X)
       (DenseBase.end_ (GenericRandAccess.generic_randaccess_stl_iterator Scalar) X).

End Traversal.

Module Guards.

(** The six comparisons of the index-based iterator, with their results
    forgotten. *)
Definition comparisons {Scalar} (b : BuildMode)
  (a c : IndexedBased.indexed_based_stl_iterator_base Scalar) : list (run unit) :=
  [ Cxx.map (fun _ => tt) (IndexedBased.operator_eq b a c);
    Cxx.map (fun _ => tt) (IndexedBased.operator_ne b a c);
    Cxx.map (fun _ => tt) (IndexedBased.operator_lt b a c);
    Cxx.map (fun _ => tt) (IndexedBased.operator_le b a c);
    Cxx.map (fun _ => tt) (IndexedBased.operator_gt b a c);
    Cxx.map (fun _ => tt) (IndexedBased.operator_ge b a c) ].

End Guards.

Module Assign.

(** Memory after the cell [a] has received [v]. *)
Definition store {Scalar} (m : memory Scalar) (a : address) (v : Scalar)
  : memory Scalar :=
  fun a' => if a' =? a then v else m a'.

(** [x = v] where [x] is the result of a dereference: a reference
    designates a cell, which receives [v]; a temporary value cannot be
    assigned to. *)
Definition assign {Scalar} (m : memory Scalar) (x : access Scalar) (v : Scalar)
  : option (memory Scalar) :=
  match x with
  | lvalue a => Some (store m a v)
  | prvalue _ => None
  end.

(** [*it = v] where dereferencing [it] gave [r]. *)
Definition through {Scalar} (m : memory Scalar) (r : run (access Scalar)) (v : Scalar)
  : option (memory Scalar) :=
  match r with
  | Done x => assign m x v
  | AssertionFailed => None
  | UndefinedBehaviour => None
  end.

End Assign.

(** * Properties *)

Import DenseBase.

Module Facts.

Lemma div_mul (a b : Index) : b <> 0 -> div (a * b) b = Done a.
Proof.
  intros Hb. unfold div.
  destruct (Z.eqb_spec b 0) as [E | _]; [contradiction |].
  now rewrite Z.quot_mul.
Qed.

Lemma ptr_eqb_refl {Scalar} (p : xpr_ptr Scalar) : ptr_eqb p p = true.
Proof. destruct p; simpl; [reflexivity | apply Z.eqb_refl]. Qed.

Lemma eigen_assert_same {Scalar A} (b : BuildMode) (p : xpr_ptr Scalar) (k : run A) :
  eigen_assert b (ptr_eqb p p) k = k.
Proof. unfold eigen_assert. rewrite ptr_eqb_refl. now destruct b. Qed.

Lemma eigen_assert_differ {A} (cond : bool) (k : run A) :
  cond = false -> eigen_assert DebugBuild cond k = AssertionFailed.
Proof. now intros ->. Qed.

Lemma operator_ne_same_xpr {Scalar} (b : BuildMode) (X : Xpr Scalar) (i j : Index) :
  IndexedBased.operator_ne b (IndexedBased.ctor X i) (IndexedBased.ctor X j)
  = Done (negb (i =? j)).
Proof.
  unfold IndexedBased.operator_ne, IndexedBased.ctor.
  cbn [IndexedBased.mp_xpr IndexedBased.m_index].
  apply eigen_assert_same.
Qed.

(** [n] times [++it], starting from the iterator constructed at [i]. *)
Lemma pointer_inc_iter {Scalar} (X : Xpr Scalar) (i : Index) (n : nat) :
  Nat.iter n (fun it => operand (PointerBased.operator_inc it))
    (PointerBased.ctor X i)
  = PointerBased.ctor X (i + Z.of_nat n).
Proof.
  induction n as [| n IH].
  - simpl. now rewrite Z.add_0_r.
  - rewrite Nat.iter_succ, IH.
    unfold PointerBased.operator_inc, PointerBased.ctor.
    cbn [operand PointerBased.m_ptr PointerBased.m_incr].
    f_equal. lia.
Qed.

Lemma indexed_inc_iter {Scalar} (X : Xpr Scalar) (i : Index) (n : nat) :
  Nat.iter n (fun it => operand (IndexedBased.operator_inc it))
    (IndexedBased.ctor X i)
  = IndexedBased.ctor X (i + Z.of_nat n).
Proof.
  induction n as [| n IH].
  - simpl. now rewrite Z.add_0_r.
  - rewrite Nat.iter_succ, IH.
    unfold IndexedBased.operator_inc, IndexedBased.ctor.
    cbn [operand IndexedBased.mp_xpr IndexedBased.m_index].
    f_equal. lia.
Qed.

Lemma indexed_end_minus_begin {Scalar} (b : BuildMode) (X : Xpr Scalar) :
  let G := GenericRandAccess.generic_randaccess_stl_iterator Scalar in
  IndexedBased.operator_diff b (end_ G X) (begin G X) = Done (size X).
Proof.
  unfold IndexedBased.operator_diff, begin, end_, construct, generic_randaccess.
  simpl. rewrite Z.eqb_refl, Z.sub_0_r. now destruct b.
Qed.

Lemma pointer_end_minus_begin {Scalar} (X : Xpr Scalar) :
  let P := PointerBased.pointer_based_stl_iterator in
  innerStride X <> 0 ->
  PointerBased.operator_diff (end_ P X) (begin P X) = Done (size X).
Proof.
  intros P Hs.
  unfold PointerBased.operator_diff, begin, end_, construct, pointer_based.
  simpl.
  replace (data X + size X * innerStride X - (data X + 0))
    with (size X * innerStride X) by lia.
  now apply div_mul.
Qed.

End Facts.

Module MachineFacts.

Lemma representable_spec (z : Z) :
  Machine.representable z = true <-> Machine.Index_min <= z <= Machine.Index_max.
Proof.
  unfold Machine.representable. rewrite andb_true_iff, !Z.leb_le. tauto.
Qed.

Lemma in_bounds_spec (A : Machine.array) (p : address) :
  Machine.in_bounds A p = true ->
  Machine.first A <= p <= Machine.first A + Machine.length A /\
  0 <= Machine.length A <= Machine.Index_max.
Proof.
  unfold Machine.in_bounds, Machine.allocatable.
  rewrite !andb_true_iff, !Z.leb_le, Z.ltb_lt.
  intros [[[[[[Hw Hf] Hl] Hsize] _] Hlo] Hhi].
  split; [lia |]. split; [lia |].
  apply Z.le_trans with (Machine.length A * Machine.element_size A); [nia | lia].
Qed.

(** Two pointers within one array are less than [Index_max] apart. *)
Lemma in_bounds_apart (A : Machine.array) (p q : address) :
  Machine.in_bounds A p = true ->
  Machine.in_bounds A q = true ->
  - Machine.Index_max <= p - q <= Machine.Index_max.
Proof.
  intros Hp Hq.
  apply in_bounds_spec in Hp. apply in_bounds_spec in Hq. lia.
Qed.

Lemma div_defined (a b : Index) :
  b <> 0 -> Machine.Index_min < a -> Machine.div a b = Done (a ÷ b).
Proof.
  intros Hb Ha. unfold Machine.div.
  destruct (Z.eqb_spec b 0) as [E | _]; [contradiction |].
  destruct (Z.eqb_spec a Machine.Index_min) as [E | _]; [lia |].
  reflexivity.
Qed.

Lemma index_max_value : Machine.Index_max = 9223372036854775807.
Proof. reflexivity. Qed.

Lemma index_min_value : Machine.Index_min = -9223372036854775808.
Proof. reflexivity. Qed.

End MachineFacts.

(** C1.  On an expression that offers direct access, the pointer-based
    iterator and the evaluated-index iterator positioned at a logical index
    [k] of the range dereference to the same element value, the one the
    by-index access of the expression gives at [k].  The position is reached
    by construction at [k], by [begin() + k], or by [k] increments of
    [begin()]. *)
Theorem dereference_agrees {Scalar} (m : memory Scalar) (X : Xpr Scalar) (k : Index) :
  direct_access m X ->
  0 <= k < size X ->
  let P := PointerBased.pointer_based_stl_iterator in
  let G := GenericRandAccess.generic_randaccess_stl_iterator Scalar in
  (read m (PointerBased.operator_star (PointerBased.ctor X k)) = elementAt m X k /\
   Cxx.map (read m) (GenericRandAccess.operator_star m (GenericRandAccess.ctor X k))
     = Done (elementAt m X k)) /\
  (returned (PointerBased.operator_plus (begin P X) k) = PointerBased.ctor X k /\
   returned (IndexedBased.operator_plus (begin G X) k) = GenericRandAccess.ctor X k) /\
  (Nat.iter (Z.to_nat k) (fun it => operand (PointerBased.operator_inc it))
     (begin P X) = PointerBased.ctor X k /\
   Nat.iter (Z.to_nat k) (fun it => operand (IndexedBased.operator_inc it))
     (begin G X) = GenericRandAccess.ctor X k).
Proof.
  intros [_ Hlayout] Hk P G.
  split; [split | split; split].
  - simpl. symmetry. now apply Hlayout.
  - reflexivity.
  - unfold begin, construct, pointer_based, PointerBased.operator_plus,
      PointerBased.ctor.
    cbn -[Z.mul Z.add]. f_equal. lia.
  - reflexivity.
  - unfold begin, construct, pointer_based.
    rewrite Facts.pointer_inc_iter. f_equal. lia.
  - unfold begin, construct, generic_randaccess, GenericRandAccess.ctor.
    rewrite Facts.indexed_inc_iter. f_equal. lia.
Qed.

Lemma dereference_agrees_witness :
  let m := Examples.ascending in
  let X := Examples.forward in
  direct_access m X /\
  0 <= 2 < size X /\
  read m (PointerBased.operator_star (PointerBased.ctor X 2)) = 30 /\
  Cxx.map (read m) (GenericRandAccess.operator_star m (GenericRandAccess.ctor X 2))
    = Done 30.
Proof.
  assert (D : direct_access Examples.ascending Examples.forward).
  { split; [reflexivity | intros k _; reflexivity]. }
  assert (R : 0 <= 2 < size Examples.forward) by (simpl; lia).
  split; [exact D | split; [exact R |]].
  exact (proj1 (dereference_agrees Examples.ascending Examples.forward 2 D R)).
Defined.

(** C2 (amended).  For a one-dimensional expression, [begin() == end()]
    holds exactly when the element count is zero and [end() - begin()] is
    the element count: for the evaluated-index iterator in every build, and
    for the pointer-based iterator whenever the inner stride of the
    expression is not zero. *)
Theorem begin_end_distance {Scalar} (b : BuildMode) (X : Xpr Scalar) :
  let P := PointerBased.pointer_based_stl_iterator in
  let G := GenericRandAccess.generic_randaccess_stl_iterator Scalar in
  (IndexedBased.operator_eq b (begin G X) (end_ G X) = Done (size X =? 0) /\
   IndexedBased.operator_diff b (end_ G X) (begin G X) = Done (size X)) /\
  (innerStride X <> 0 ->
   PointerBased.operator_eq (begin P X) (end_ P X) = Done (size X =? 0) /\
   PointerBased.operator_diff (end_ P X) (begin P X) = Done (size X)).
Proof.
  intros P G. split; [split |].
  - unfold IndexedBased.operator_eq, begin, end_, construct, generic_randaccess.
    simpl. rewrite Z.eqb_refl.
    replace (0 =? size X) with (size X =? 0) by apply Z.eqb_sym.
    now destruct b.
  - apply Facts.indexed_end_minus_begin.
  - intros Hs. split.
    + unfold PointerBased.operator_eq, begin, end_, construct, pointer_based.
      simpl. f_equal.
      destruct (Z.eqb_spec (size X) 0) as [E | E].
      * rewrite E. apply Z.eqb_refl.
      * apply Z.eqb_neq. nia.
    + now apply Facts.pointer_end_minus_begin.
Qed.

Lemma begin_end_distance_witness :
  let P := PointerBased.pointer_based_stl_iterator in
  let X := Examples.sparse in
  innerStride X <> 0 /\
  PointerBased.operator_eq (begin P X) (end_ P X) = Done false /\
  PointerBased.operator_diff (end_ P X) (begin P X) = Done 2.
Proof.
  assert (S : innerStride Examples.sparse <> 0) by (simpl; lia).
  split; [exact S |].
  exact (proj2 (begin_end_distance DebugBuild Examples.sparse) S).
Defined.

(** C2, as stated, fails on the pointer-based iterator: over a vector of
    three elements whose inner stride is zero, [begin() == end()] is true
    although the element count is 3, and [end() - begin()] divides by zero. *)
Lemma begin_end_zero_stride :
  let P := PointerBased.pointer_based_stl_iterator in
  let X := Examples.broadcast in
  size X = 3 /\
  PointerBased.operator_eq (begin P X) (end_ P X) = Done true /\
  PointerBased.operator_diff (end_ P X) (begin P X) = UndefinedBehaviour.
Proof. repeat split. Qed.

(** C3 (amended).  [it + i] leaves [it] as it was and returns a new
    iterator [i] positions further, and [(it + i) - it] is [i], for every
    valid offset [i]: on an index-based iterator (evaluated-index or
    sub-vector), in every build, when the index [m_index + i] is
    representable; on a pointer-based iterator when its stride is not
    zero and both [m_ptr] and [m_ptr + i * stride] lie within the bounds
    of the array the iterator points into. *)
Theorem offset_then_difference {Scalar} (b : BuildMode)
  (it : IndexedBased.indexed_based_stl_iterator_base Scalar)
  (A : Machine.array) (p : PointerBased.pointer_based_stl_iterator) (i : Index) :
  (Machine.representable (IndexedBased.m_index it) = true ->
   Machine.representable i = true ->
   Machine.representable (IndexedBased.m_index it + i) = true ->
   exists r,
     IndexedChecked.operator_plus it i = Done r /\
     operand r = it /\
     IndexedBased.m_index (returned r) = IndexedBased.m_index it + i /\
     IndexedBased.mp_xpr (returned r) = IndexedBased.mp_xpr it /\
     IndexedChecked.operator_diff b (returned r) it = Done i) /\
  (PointerBased.m_incr p <> 0 ->
   Machine.representable (PointerBased.m_incr p) = true ->
   Machine.representable i = true ->
   Machine.in_bounds A (PointerBased.m_ptr p) = true ->
   Machine.in_bounds A (PointerBased.m_ptr p + i * PointerBased.m_incr p) = true ->
   exists r,
     PointerChecked.operator_plus A p i = Done r /\
     operand r = p /\
     PointerBased.m_ptr (returned r)
       = PointerBased.m_ptr p + i * PointerBased.m_incr p /\
     PointerBased.m_incr (returned r) = PointerBased.m_incr p /\
     PointerChecked.operator_diff A (returned r) p = Done i).
Proof.
  split.
  - intros _ Hi Hnext.
    exists (IndexedBased.operator_plus it i).
    unfold IndexedChecked.operator_plus, IndexedChecked.guard. rewrite Hnext.
    split; [reflexivity | split; [reflexivity | split; [reflexivity |]]].
    split; [reflexivity |].
    unfold IndexedChecked.operator_diff, IndexedBased.operator_diff.
    cbn [IndexedBased.operator_plus IndexedBased.operator_add_assign operand
         returned IndexedBased.mp_xpr IndexedBased.m_index].
    rewrite Facts.eigen_assert_same.
    replace (IndexedBased.m_index it + i - IndexedBased.m_index it) with i by lia.
    now rewrite Hi.
  - intros Hs _ _ Hp Hq.
    pose proof (MachineFacts.in_bounds_apart A _ _ Hq Hp) as Hspan.
    replace (PointerBased.m_ptr p + i * PointerBased.m_incr p - PointerBased.m_ptr p)
      with (i * PointerBased.m_incr p) in Hspan by lia.
    assert (Hprod : Machine.representable (i * PointerBased.m_incr p) = true).
    { apply MachineFacts.representable_spec.
      rewrite MachineFacts.index_min_value.
      rewrite MachineFacts.index_max_value in *. lia. }
    exists (PointerBased.operator_plus p i).
    unfold PointerChecked.operator_plus, PointerChecked.guard.
    rewrite Hprod, Hp, Hq.
    split; [reflexivity | split; [reflexivity | split; [reflexivity |]]].
    split; [reflexivity |].
    unfold PointerChecked.operator_diff.
    cbn [PointerBased.operator_plus PointerBased.operator_add_assign operand
         returned PointerBased.m_ptr PointerBased.m_incr].
    rewrite Hp, Hq. cbn [andb].
    replace (PointerBased.m_ptr p + i * PointerBased.m_incr p - PointerBased.m_ptr p)
      with (i * PointerBased.m_incr p) by lia.
    rewrite MachineFacts.div_defined.
    + now rewrite Z.quot_mul.
    + exact Hs.
    + rewrite MachineFacts.index_min_value.
      rewrite MachineFacts.index_max_value in Hspan. lia.
Qed.

Lemma offset_then_difference_witness :
  let A := {| Machine.first := 100; Machine.length := 12; Machine.element_size := 8 |} in
  let p := PointerBased.ctor Examples.sparse 0 in
  (PointerBased.m_incr p <> 0 /\
   Machine.representable (PointerBased.m_incr p) = true /\
   Machine.representable 5 = true /\
   Machine.in_bounds A (PointerBased.m_ptr p) = true /\
   Machine.in_bounds A (PointerBased.m_ptr p + 5 * PointerBased.m_incr p) = true) /\
  exists r,
    PointerChecked.operator_plus A p 5 = Done r /\
    PointerChecked.operator_diff A (returned r) p = Done 5.
Proof.
  assert (S : PointerBased.m_incr (PointerBased.ctor Examples.sparse 0) <> 0)
    by (simpl; lia).
  split; [split; [exact S | repeat split] |].
  destruct (proj2 (offset_then_difference DebugBuild
                     (IndexedBased.ctor Examples.tens 0)
                     {| Machine.first := 100; Machine.length := 12;
                        Machine.element_size := 8 |}
                     (PointerBased.ctor Examples.sparse 0) 5)
              S eq_refl eq_refl eq_refl eq_refl)
    as (r & Hplus & _ & _ & _ & Hdiff).
  exists r. split; [exact Hplus | exact Hdiff].
Defined.

(** C3, as stated, fails for some iterators and integers.  On a
    pointer-based iterator of stride zero [it + 2] is formed, but
    [(it + 2) - it] divides by zero instead of giving 2.  On an index-based
    iterator at the largest index, [it + 1] overflows [m_index].  And a
    pointer-based iterator over four cells cannot be moved five cells
    on. *)
Lemma offset_invalid_inputs :
  let A := {| Machine.first := 100; Machine.length := 4; Machine.element_size := 8 |} in
  let p := PointerBased.ctor Examples.broadcast 0 in
  (PointerChecked.operator_plus A p 2 = Done (PointerBased.operator_plus p 2) /\
   PointerChecked.operator_diff A (returned (PointerBased.operator_plus p 2)) p
     = UndefinedBehaviour) /\
  IndexedChecked.operator_plus
    (GenericRandAccess.ctor Examples.tens Machine.Index_max) 1
    = UndefinedBehaviour /\
  PointerChecked.operator_plus A (PointerBased.ctor Examples.forward 0) 5
    = UndefinedBehaviour.
Proof. repeat split. Qed.

(** C4.  Dereferencing the evaluated-index iterator calls the by-index
    access of its expression at the current logical index.  When the
    expression is an lvalue ([is_lvalue]: mutable, with elements
    addressable one by one) the [reference] typedef is [value_type&] and the
    result is a reference to the element; otherwise [reference] is
    [const value_type] and the result is a copy of the element's value, not
    a reference. *)
Theorem generic_dereference {Scalar} (m : memory Scalar)
  (it : GenericRandAccess.generic_randaccess_stl_iterator Scalar) (X : Xpr Scalar) :
  IndexedBased.mp_xpr it = addr_of X ->
  let k := IndexedBased.m_index it in
  GenericRandAccess.operator_star m it = Done (call X m k) /\
  (is_lvalue (traits X) = true ->
   GenericRandAccess.reference (traits X) = value_type_ref /\
   GenericRandAccess.operator_star m it = Done (lvalue (coeffRef X k))) /\
  (is_lvalue (traits X) = false ->
   GenericRandAccess.reference (traits X) = const_value_type /\
   GenericRandAccess.operator_star m it = Done (prvalue (coeff X m k))).
Proof.
  intros Hx k.
  unfold GenericRandAccess.operator_star, GenericRandAccess.reference,
    GenericRandAccess.read_only_ref_t, conditional, call.
  rewrite Hx. fold k.
  split; [reflexivity | split]; intros ->; split; reflexivity.
Qed.

Lemma generic_dereference_witness :
  let it := returned (IndexedBased.operator_plus
                        (begin (GenericRandAccess.generic_randaccess_stl_iterator Z)
                               Examples.tens) 2) in
  IndexedBased.mp_xpr it = addr_of Examples.tens /\
  is_lvalue (traits Examples.tens) = false /\
  GenericRandAccess.reference (traits Examples.tens) = const_value_type /\
  GenericRandAccess.operator_star Examples.ascending it = Done (prvalue 30).
Proof.
  split; [reflexivity | split; [reflexivity |]].
  refine (proj2 (proj2 (generic_dereference Examples.ascending
                          (returned (IndexedBased.operator_plus
                                       (GenericRandAccess.ctor Examples.tens 0) 2))
                          Examples.tens eq_refl)) _).
  reflexivity.
Defined.

(** C5 (amended).  In a debug build, every comparison and the difference
    of two index-based iterators (evaluated-index or sub-vector) bound to
    different expression instances stop at the failing assertion.  The
    pointer-based iterator keeps no reference to its expression and is not
    covered. *)
Theorem mismatch_asserts_in_debug {Scalar}
  (a c : IndexedBased.indexed_based_stl_iterator_base Scalar) (X Y : Xpr Scalar) :
  IndexedBased.mp_xpr a = addr_of X ->
  IndexedBased.mp_xpr c = addr_of Y ->
  this X <> this Y ->
  IndexedBased.operator_diff DebugBuild a c = AssertionFailed /\
  IndexedBased.operator_eq DebugBuild a c = AssertionFailed /\
  IndexedBased.operator_ne DebugBuild a c = AssertionFailed /\
  IndexedBased.operator_lt DebugBuild a c = AssertionFailed /\
  IndexedBased.operator_le DebugBuild a c = AssertionFailed /\
  IndexedBased.operator_gt DebugBuild a c = AssertionFailed /\
  IndexedBased.operator_ge DebugBuild a c = AssertionFailed.
Proof.
  intros Ha Hc Hne.
  assert (E : ptr_eqb (IndexedBased.mp_xpr a) (IndexedBased.mp_xpr c) = false).
  { rewrite Ha, Hc. simpl. now apply Z.eqb_neq. }
  unfold IndexedBased.operator_diff, IndexedBased.operator_eq,
    IndexedBased.operator_ne, IndexedBased.operator_lt, IndexedBased.operator_le,
    IndexedBased.operator_gt, IndexedBased.operator_ge.
  repeat split; now apply Facts.eigen_assert_differ.
Qed.

Lemma mismatch_asserts_in_debug_witness :
  let a := GenericRandAccess.ctor Examples.forward 1 in
  let c := GenericRandAccess.ctor Examples.forward' 1 in
  this Examples.forward <> this Examples.forward' /\
  IndexedBased.operator_eq DebugBuild a c = AssertionFailed /\
  IndexedBased.operator_diff DebugBuild a c = AssertionFailed.
Proof.
  assert (N : this Examples.forward <> this Examples.forward')
    by (simpl; lia).
  split; [exact N |].
  destruct (mismatch_asserts_in_debug
              (GenericRandAccess.ctor Examples.forward 1)
              (GenericRandAccess.ctor Examples.forward' 1)
              Examples.forward Examples.forward' eq_refl eq_refl N)
    as (Hd & He & _).
  split; [exact He | exact Hd].
Defined.

(** C5, as stated, fails on the pointer-based iterator: two iterators
    made from different expression instances are compared and subtracted
    in a debug build without any assertion; each operation returns. *)
Lemma pointer_mismatch_unchecked :
  let a := PointerBased.ctor Examples.forward 1 in
  let c := PointerBased.ctor Examples.forward' 1 in
  this Examples.forward <> this Examples.forward' /\
  PointerBased.operator_diff a c = Done 0 /\
  PointerBased.operator_eq a c = Done true /\
  PointerBased.operator_ne a c = Done false /\
  PointerBased.operator_lt a c = Done false /\
  PointerBased.operator_le a c = Done true /\
  PointerBased.operator_gt a c = Done false /\
  PointerBased.operator_ge a c = Done true.
Proof. simpl. repeat split. lia. Qed.

(** C6 (amended).  For a pointer-based iterator whose stride is not zero,
    the difference of two iterators is [(ptrA - ptrB) / stride], the
    quotient truncated towards zero; no assertion or error is involved,
    whatever the pair.  The result is the distance between the logical
    indices whenever both iterators come from the same base and stride.
    For a mismatched pair it can differ from that distance: the iterator at
    index 3 of a contiguous vector minus the iterator at index 1 of a vector
    of stride 2 over the same base gives 1. *)
Theorem pointer_difference (a c : PointerBased.pointer_based_stl_iterator) :
  PointerBased.m_incr a <> 0 ->
  PointerBased.operator_diff a c
    = Done ((PointerBased.m_ptr a - PointerBased.m_ptr c) ÷ PointerBased.m_incr a) /\
  (forall (base : address) (i j : Index),
     PointerBased.m_ptr a = base + i * PointerBased.m_incr a ->
     PointerBased.m_ptr c = base + j * PointerBased.m_incr a ->
     PointerBased.operator_diff a c = Done (i - j)) /\
  PointerBased.operator_diff (PointerBased.ctor Examples.forward 3)
                             (PointerBased.ctor Examples.sparse 1) = Done 1.
Proof.
  intros Hs. split; [| split].
  - unfold PointerBased.operator_diff, div.
    destruct (Z.eqb_spec (PointerBased.m_incr a) 0) as [E | _]; [contradiction |].
    reflexivity.
  - intros base i j Ha Hc. unfold PointerBased.operator_diff.
    rewrite Ha, Hc.
    replace (base + i * PointerBased.m_incr a - (base + j * PointerBased.m_incr a))
      with ((i - j) * PointerBased.m_incr a) by lia.
    now apply Facts.div_mul.
  - reflexivity.
Qed.

Lemma pointer_difference_witness :
  let a := PointerBased.ctor Examples.sparse 7 in
  let c := PointerBased.ctor Examples.sparse 3 in
  PointerBased.m_incr a <> 0 /\
  PointerBased.operator_diff a c = Done 4.
Proof.
  assert (S : PointerBased.m_incr (PointerBased.ctor Examples.sparse 7) <> 0)
    by (simpl; lia).
  split; [exact S |].
  exact (proj1 (proj2 (pointer_difference
                         (PointerBased.ctor Examples.sparse 7)
                         (PointerBased.ctor Examples.sparse 3) S))
           100 7 3 eq_refl eq_refl).
Defined.

(** C6, as stated, fails twice.  Two iterators from the same base and the
    same stride, zero, have no difference at all: the division by the
    stride is undefined, where the claim promises the exact distance 2 and
    no trap.  And a mismatched pair need not give an incorrect result: index
    1 of a vector of stride 2 minus index 0 of a contiguous vector over the
    same base gives 1, the very distance between the indices. *)
Lemma pointer_difference_not_as_stated :
  PointerBased.operator_diff (PointerBased.ctor Examples.broadcast 2)
                             (PointerBased.ctor Examples.broadcast 0)
    = UndefinedBehaviour /\
  innerStride Examples.sparse <> innerStride Examples.forward /\
  PointerBased.operator_diff (PointerBased.ctor Examples.sparse 1)
                             (PointerBased.ctor Examples.forward 0)
    = Done (1 - 0).
Proof. simpl. repeat split. lia. Qed.




Module RangeFacts.

Import SubVectorIter.

(** The loop started at index [i] with [n] positions left before [last]
    collects the sub-vectors [i], [i+1], ..., [i+n-1] and stops, as soon as
    its bound allows the [n + 1] tests of the loop condition. *)
Lemma range_for_from {Scalar} (d : DirectionType) (b : BuildMode) (X : Xpr Scalar)
  (n : nat) :
  forall (i : Index) (fuel : nat),
    (n < fuel)%nat ->
    Proxy.range_for fuel b (ctor d X i) (ctor d X (i + Z.of_nat n))
    = Some (Done (List.map (fun k => subVector d X (i + Z.of_nat k)) (seq 0 n))).
Proof.
  induction n as [| n IH]; intros i fuel Hfuel.
  - destruct fuel as [| fuel]; [lia |].
    cbn [Proxy.range_for]. unfold ctor.
    rewrite Facts.operator_ne_same_xpr.
    replace (i =? i + Z.of_nat 0) with true
      by (symmetry; apply Z.eqb_eq; lia).
    reflexivity.
  - destruct fuel as [| fuel]; [lia |].
    cbn [Proxy.range_for]. unfold ctor.
    rewrite Facts.operator_ne_same_xpr.
    replace (i =? i + Z.of_nat (S n)) with false
      by (symmetry; apply Z.eqb_neq; lia).
    cbn [negb].
    change (operator_star (d := d) (IndexedBased.ctor X i))
      with (Done (subVector d X i)).
    change (operand (IndexedBased.operator_inc (IndexedBased.ctor X i)))
      with (ctor d X (i + 1)).
    replace (IndexedBased.ctor X (i + Z.of_nat (S n)))
      with (ctor d X (i + 1 + Z.of_nat n))
      by (unfold ctor; f_equal; lia).
    rewrite IH by lia.
    f_equal. f_equal.
    cbn [seq List.map]. rewrite Z.add_0_r. f_equal.
    rewrite <- seq_shift, List.map_map.
    apply List.map_ext. intros k. f_equal. lia.
Qed.

Lemma views_all {Scalar} (d : DirectionType) (b : BuildMode) (X : Xpr Scalar)
  (fuel : nat) :
  0 <= subVectors d X ->
  (Z.to_nat (subVectors d X) < fuel)%nat ->
  Proxy.views (d := d) fuel b {| Proxy.m_xpr := X |}
  = Some (Done (List.map (fun k => subVector d X (Z.of_nat k))
                  (seq 0 (Z.to_nat (subVectors d X))))).
Proof.
  intros Hn Hfuel. unfold Proxy.views, Proxy.begin, Proxy.end_.
  cbn [Proxy.m_xpr].
  replace (subVectors d X) with (0 + Z.of_nat (Z.to_nat (subVectors d X))) at 1
    by lia.
  now rewrite range_for_from.
Qed.

End RangeFacts.

(** C8.  Over a two-dimensional expression with R rows and C columns, the
    row-wise range starts at index 0 and ends at index R, and a traversal
    yields exactly the R views of index 0 to R-1, in this order; view [k]
    has C elements, element [j] being element [(k, j)] of the expression.
    The column-wise range starts at 0, ends at C and yields the C views of
    index 0 to C-1; view [k] has R elements, element [j] being element
    [(j, k)].  The traversal ends as soon as the loop is allowed one test
    more than there are views. *)
Theorem subvector_ranges {Scalar} (b : BuildMode) (m : memory Scalar)
  (X : Xpr Scalar) (fuel : nat) :
  0 <= rows X ->
  0 <= cols X ->
  (Z.to_nat (rows X) < fuel)%nat ->
  (Z.to_nat (cols X) < fuel)%nat ->
  (IndexedBased.m_index (Proxy.begin (Proxy.allRows X)) = 0 /\
   IndexedBased.m_index (Proxy.end_ (Proxy.allRows X)) = rows X /\
   Proxy.views fuel b (Proxy.allRows X)
   = Some (Done (List.map (fun k => subVector Horizontal X (Z.of_nat k))
                   (seq 0 (Z.to_nat (rows X))))) /\
   forall k j,
     sub_size (subVector Horizontal X k) = cols X /\
     sub_coeff m (subVector Horizontal X k) j = coeff2 X m k j) /\
  (IndexedBased.m_index (Proxy.begin (Proxy.allCols X)) = 0 /\
   IndexedBased.m_index (Proxy.end_ (Proxy.allCols X)) = cols X /\
   Proxy.views fuel b (Proxy.allCols X)
   = Some (Done (List.map (fun k => subVector Vertical X (Z.of_nat k))
                   (seq 0 (Z.to_nat (cols X))))) /\
   forall k j,
     sub_size (subVector Vertical X k) = rows X /\
     sub_coeff m (subVector Vertical X k) j = coeff2 X m j k).
Proof.
  intros Hr Hc Hfr Hfc. split.
  - split; [reflexivity | split; [reflexivity | split]].
    + now apply (RangeFacts.views_all Horizontal).
    + intros k j. split; reflexivity.
  - split; [reflexivity | split; [reflexivity | split]].
    + now apply (RangeFacts.views_all Vertical).
    + intros k j. split; reflexivity.
Qed.

Lemma subvector_ranges_witness :
  let X := Examples.grid in
  (0 <= rows X /\ 0 <= cols X /\
   (Z.to_nat (rows X) < 4)%nat /\ (Z.to_nat (cols X) < 4)%nat) /\
  Proxy.views 4 DebugBuild (Proxy.allRows X)
  = Some (Done [subVector Horizontal X 0; subVector Horizontal X 1;
                subVector Horizontal X 2]) /\
  Proxy.views 4 DebugBuild (Proxy.allCols X)
  = Some (Done [subVector Vertical X 0; subVector Vertical X 1]).
Proof.
  assert (Hr : 0 <= rows Examples.grid) by (simpl; lia).
  assert (Hc : 0 <= cols Examples.grid) by (simpl; lia).
  assert (Hfr : (Z.to_nat (rows Examples.grid) < 4)%nat) by (simpl; lia).
  assert (Hfc : (Z.to_nat (cols Examples.grid) < 4)%nat) by (simpl; lia).
  split; [repeat split; assumption |].
  destruct (subvector_ranges DebugBuild Examples.ascending Examples.grid 4
              Hr Hc Hfr Hfc) as ((_ & _ & Hrows & _) & (_ & _ & Hcols & _)).
  split; [exact Hrows | exact Hcols].
Defined.

(** C9 (amended).  Over a one-dimensional expression whose elements are
    10, 20, 30, 40 in logical order: [begin()] dereferences to 10,
    [begin() + 2] to 30 and [end() - begin()] is 4, for the evaluated-index
    iterator and, whatever the layout of a directly addressable expression,
    for the pointer-based iterator.  [(begin() + 1) < (begin() + 3)] is true
    for the evaluated-index iterator; the pointer-based iterator compares
    addresses, and there it is true exactly when the inner stride is
    positive. *)
Theorem scenario_four_elements (b : BuildMode) (m : memory Z) (X : Xpr Z) :
  size X = 4 ->
  elementAt m X 0 = 10 ->
  elementAt m X 1 = 20 ->
  elementAt m X 2 = 30 ->
  elementAt m X 3 = 40 ->
  let G := GenericRandAccess.generic_randaccess_stl_iterator Z in
  let P := PointerBased.pointer_based_stl_iterator in
  (Cxx.map (read m) (GenericRandAccess.operator_star m (begin G X)) = Done 10 /\
   Cxx.map (read m) (GenericRandAccess.operator_star m
                       (returned (IndexedBased.operator_plus (begin G X) 2)))
     = Done 30 /\
   IndexedBased.operator_diff b (end_ G X) (begin G X) = Done 4 /\
   IndexedBased.operator_lt b
     (returned (IndexedBased.operator_plus (begin G X) 1))
     (returned (IndexedBased.operator_plus (begin G X) 3)) = Done true) /\
  (direct_access m X ->
   read m (PointerBased.operator_star (begin P X)) = 10 /\
   read m (PointerBased.operator_star
             (returned (PointerBased.operator_plus (begin P X) 2))) = 30 /\
   PointerBased.operator_diff (end_ P X) (begin P X) = Done 4 /\
   PointerBased.operator_lt
     (returned (PointerBased.operator_plus (begin P X) 1))
     (returned (PointerBased.operator_plus (begin P X) 3))
     = Done (0 <? innerStride X)).
Proof.
  intros Hsize H0 H1 H2 H3 G P. split.
  - split; [| split; [| split]].
    + simpl. f_equal. exact H0.
    + simpl. f_equal. exact H2.
    + rewrite <- Hsize. apply Facts.indexed_end_minus_begin.
    + unfold IndexedBased.operator_lt. simpl.
      rewrite Z.eqb_refl. now destruct b.
  - intros [_ Hlayout].
    assert (L0 : m (data X + 0 * innerStride X) = 10)
      by (rewrite <- Hlayout by lia; exact H0).
    assert (L1 : m (data X + 1 * innerStride X) = 20)
      by (rewrite <- Hlayout by lia; exact H1).
    assert (L2 : m (data X + 2 * innerStride X) = 30)
      by (rewrite <- Hlayout by lia; exact H2).
    assert (Hs : innerStride X <> 0).
    { intros E. rewrite E in L0, L1. simpl in L0, L1.
      rewrite L0 in L1. discriminate L1. }
    split; [| split; [| split]].
    + unfold begin, construct, pointer_based, PointerBased.ctor.
      cbn -[Z.mul Z.add]. exact L0.
    + unfold begin, construct, pointer_based, PointerBased.ctor.
      cbn -[Z.mul Z.add].
      replace (data X + 0 * innerStride X + 2 * innerStride X)
        with (data X + 2 * innerStride X) by lia.
      exact L2.
    + rewrite <- Hsize. now apply Facts.pointer_end_minus_begin.
    + unfold begin, construct, pointer_based, PointerBased.ctor.
      unfold PointerBased.operator_lt. cbn -[Z.mul Z.add Z.ltb]. f_equal.
      destruct (Z.ltb_spec 0 (innerStride X)) as [Hp | Hn].
      * apply Z.ltb_lt. lia.
      * apply Z.ltb_ge. lia.
Qed.

Lemma scenario_four_elements_witness :
  let m := Examples.ascending in
  let X := Examples.forward in
  let P := PointerBased.pointer_based_stl_iterator in
  (size X = 4 /\ elementAt m X 0 = 10 /\ elementAt m X 1 = 20 /\
   elementAt m X 2 = 30 /\ elementAt m X 3 = 40 /\ direct_access m X) /\
  read m (PointerBased.operator_star (begin P X)) = 10 /\
  read m (PointerBased.operator_star
            (returned (PointerBased.operator_plus (begin P X) 2))) = 30 /\
  PointerBased.operator_diff (end_ P X) (begin P X) = Done 4 /\
  PointerBased.operator_lt
    (returned (PointerBased.operator_plus (begin P X) 1))
    (returned (PointerBased.operator_plus (begin P X) 3)) = Done true.
Proof.
  assert (D : direct_access Examples.ascending Examples.forward).
  { split; [reflexivity | intros k _; reflexivity]. }
  split.
  - repeat split; try reflexivity; apply D.
  - exact (proj2 (scenario_four_elements DebugBuild Examples.ascending
                    Examples.forward eq_refl eq_refl eq_refl eq_refl eq_refl) D).
Defined.

(** C9, as stated, fails for a negative stride.  The vector that walks
    the cells 103, 102, 101, 100 holding 10, 20, 30, 40 has these elements
    in logical order and offers direct access, yet
    [(begin() + 1) < (begin() + 3)] is false on its pointer-based iterator:
    address 102 is not below address 100. *)
Lemma scenario_negative_stride :
  let m := Examples.descending in
  let X := Examples.backward in
  let P := PointerBased.pointer_based_stl_iterator in
  (size X = 4 /\ elementAt m X 0 = 10 /\ elementAt m X 1 = 20 /\
   elementAt m X 2 = 30 /\ elementAt m X 3 = 40) /\
  DirectAccessBit (traits X) = true /\
  read m (PointerBased.operator_star (begin P X)) = 10 /\
  PointerBased.operator_lt
    (returned (PointerBased.operator_plus (begin P X) 1))
    (returned (PointerBased.operator_plus (begin P X) 3)) = Done false.
Proof. repeat split. Qed.

(** C10.  On an index-based iterator (evaluated-index or sub-vector), each
    arithmetic operator, pre- and post-increment and decrement, [+=], [-=]
    and the four offsets by an integer, changes nothing but the logical
    index: the iterator after the call and the iterator returned both hold
    the expression pointer they started with.  Hence every iterator
    obtained from [it] by arithmetic stays bound to the expression instance
    [it] was constructed with. *)
Theorem arithmetic_keeps_expression {Scalar}
  (it : IndexedBased.indexed_based_stl_iterator_base Scalar) :
  (forall op,
     IndexedBased.mp_xpr (operand (IndexedBased.apply op it))
       = IndexedBased.mp_xpr it /\
     IndexedBased.mp_xpr (returned (IndexedBased.apply op it))
       = IndexedBased.mp_xpr it) /\
  (forall j, IndexedBased.derived_from it j ->
     IndexedBased.mp_xpr j = IndexedBased.mp_xpr it) /\
  (forall X i, it = IndexedBased.ctor X i ->
     forall j, IndexedBased.derived_from it j ->
       IndexedBased.mp_xpr j = addr_of X).
Proof.
  assert (Step : forall op (j : IndexedBased.indexed_based_stl_iterator_base Scalar),
            IndexedBased.mp_xpr (operand (IndexedBased.apply op j))
              = IndexedBased.mp_xpr j /\
            IndexedBased.mp_xpr (returned (IndexedBased.apply op j))
              = IndexedBased.mp_xpr j).
  { intros op j. destruct op; split; reflexivity. }
  assert (Closure : forall j, IndexedBased.derived_from it j ->
            IndexedBased.mp_xpr j = IndexedBased.mp_xpr it).
  { intros j Hj. induction Hj as [| op j _ IH | op j _ IH].
    - reflexivity.
    - now rewrite (proj1 (Step op j)).
    - now rewrite (proj2 (Step op j)). }
  split; [intros op; apply Step | split; [exact Closure |]].
  intros X i -> j Hj. now rewrite (Closure j Hj).
Qed.

Lemma arithmetic_keeps_expression_witness :
  let it := SubVectorIter.ctor Horizontal Examples.grid 0 in
  let j := returned (IndexedBased.apply (IndexedBased.Plus 2)
             (operand (IndexedBased.apply IndexedBased.PostInc it))) in
  IndexedBased.derived_from it j /\
  IndexedBased.mp_xpr j = addr_of Examples.grid.
Proof.
  assert (D : IndexedBased.derived_from
                (SubVectorIter.ctor Horizontal Examples.grid 0)
                (returned (IndexedBased.apply (IndexedBased.Plus 2)
                   (operand (IndexedBased.apply IndexedBased.PostInc
                      (SubVectorIter.ctor Horizontal Examples.grid 0)))))).
  { apply IndexedBased.derived_returned, IndexedBased.derived_operand,
      IndexedBased.derived_self. }
  split; [exact D |].
  exact (proj2 (proj2 (arithmetic_keeps_expression
                         (SubVectorIter.ctor Horizontal Examples.grid 0)))
           Examples.grid 0 eq_refl _ D).
Defined.

(** * Further properties of the iterator classes *)

Module StepFacts.

Lemma indexed_eta {Scalar} (it : IndexedBased.indexed_based_stl_iterator_base Scalar)
  (i : Index) :
  i = IndexedBased.m_index it ->
  {| IndexedBased.mp_xpr := IndexedBased.mp_xpr it; IndexedBased.m_index := i |} = it.
Proof. intros ->. now destruct it. Qed.

Lemma pointer_eta (it : PointerBased.pointer_based_stl_iterator) (p : address) :
  p = PointerBased.m_ptr it ->
  {| PointerBased.m_ptr := p; PointerBased.m_incr := PointerBased.m_incr it |} = it.
Proof. intros ->. now destruct it. Qed.

Lemma indexed_at {Scalar} (it : IndexedBased.indexed_based_stl_iterator_base Scalar)
  (i j : Index) :
  i = j ->
  {| IndexedBased.mp_xpr := IndexedBased.mp_xpr it; IndexedBased.m_index := i |}
  = {| IndexedBased.mp_xpr := IndexedBased.mp_xpr it; IndexedBased.m_index := j |}.
Proof. now intros ->. Qed.

Lemma pointer_at (it : PointerBased.pointer_based_stl_iterator) (p q : address) :
  p = q ->
  {| PointerBased.m_ptr := p; PointerBased.m_incr := PointerBased.m_incr it |}
  = {| PointerBased.m_ptr := q; PointerBased.m_incr := PointerBased.m_incr it |}.
Proof. now intros ->. Qed.

End StepFacts.

(** X1.  On an index-based iterator the integer offsets act as a group:
    [--] undoes [++], [-=] undoes [+=], [(it + n) - n] is [it] again,
    offsets add up, [it + 0] is [it], and [n + it] is [it + n].  The
    left-handed subtraction [n - it] is the iterator [it - n]. *)
Theorem indexed_offsets_compose {Scalar}
  (it : IndexedBased.indexed_based_stl_iterator_base Scalar) (n k : Index) :
  operand (IndexedBased.operator_dec (operand (IndexedBased.operator_inc it))) = it /\
  operand (IndexedBased.operator_inc (operand (IndexedBased.operator_dec it))) = it /\
  operand (IndexedBased.operator_sub_assign
             (operand (IndexedBased.operator_add_assign it n)) n) = it /\
  returned (IndexedBased.operator_minus
              (returned (IndexedBased.operator_plus it n)) n) = it /\
  returned (IndexedBased.operator_plus
              (returned (IndexedBased.operator_plus it n)) k)
    = returned (IndexedBased.operator_plus it (n + k)) /\
  returned (IndexedBased.operator_plus it 0) = it /\
  returned (IndexedBased.operator_plus_left n it)
    = returned (IndexedBased.operator_plus it n) /\
  returned (IndexedBased.operator_minus_left n it)
    = returned (IndexedBased.operator_minus it n) /\
  returned (IndexedBased.operator_minus it n)
    = returned (IndexedBased.operator_plus it (- n)).
Proof.
  unfold IndexedBased.operator_minus, IndexedBased.operator_plus,
    IndexedBased.operator_plus_left, IndexedBased.operator_minus_left,
    IndexedBased.operator_dec, IndexedBased.operator_inc,
    IndexedBased.operator_sub_assign, IndexedBased.operator_add_assign.
  cbn [operand returned IndexedBased.mp_xpr IndexedBased.m_index].
  repeat match goal with |- _ /\ _ => split end;
    first [ reflexivity
          | apply StepFacts.indexed_eta; lia
          | apply StepFacts.indexed_at; lia ].
Qed.

(** X2.  The same laws on the pointer-based iterator, whatever the
    stride: decrement undoes increment, [-=] undoes [+=], offsets add up,
    [n + it] is [it + n] and [n - it] is [it - n].  The stride itself is
    never changed. *)
Theorem pointer_offsets_compose (it : PointerBased.pointer_based_stl_iterator)
  (n k : Index) :
  operand (PointerBased.operator_dec (operand (PointerBased.operator_inc it))) = it /\
  operand (PointerBased.operator_inc (operand (PointerBased.operator_dec it))) = it /\
  operand (PointerBased.operator_sub_assign
             (operand (PointerBased.operator_add_assign it n)) n) = it /\
  returned (PointerBased.operator_minus
              (returned (PointerBased.operator_plus it n)) n) = it /\
  returned (PointerBased.operator_plus
              (returned (PointerBased.operator_plus it n)) k)
    = returned (PointerBased.operator_plus it (n + k)) /\
  returned (PointerBased.operator_plus it 0) = it /\
  returned (PointerBased.operator_plus_left n it)
    = returned (PointerBased.operator_plus it n) /\
  returned (PointerBased.operator_minus_left n it)
    = returned (PointerBased.operator_minus it n) /\
  returned (PointerBased.operator_minus it n)
    = returned (PointerBased.operator_plus it (- n)) /\
  PointerBased.m_incr (returned (PointerBased.operator_plus it n))
    = PointerBased.m_incr it.
Proof.
  unfold PointerBased.operator_minus, PointerBased.operator_plus,
    PointerBased.operator_plus_left, PointerBased.operator_minus_left,
    PointerBased.operator_dec, PointerBased.operator_inc,
    PointerBased.operator_sub_assign, PointerBased.operator_add_assign.
  cbn [operand returned PointerBased.m_ptr PointerBased.m_incr].
  repeat match goal with |- _ /\ _ => split end;
    first [ reflexivity
          | apply StepFacts.pointer_eta; lia
          | apply StepFacts.pointer_at; lia ].
Qed.

(** X3.  [n] increments in a row leave either kind of iterator where
    [it += n] leaves it, and [n] decrements where [it -= n] does. *)
Theorem repeated_steps {Scalar}
  (it : IndexedBased.indexed_based_stl_iterator_base Scalar)
  (p : PointerBased.pointer_based_stl_iterator) (n : nat) :
  Nat.iter n (fun j => operand (IndexedBased.operator_inc j)) it
    = operand (IndexedBased.operator_add_assign it (Z.of_nat n)) /\
  Nat.iter n (fun j => operand (IndexedBased.operator_dec j)) it
    = operand (IndexedBased.operator_sub_assign it (Z.of_nat n)) /\
  Nat.iter n (fun q => operand (PointerBased.operator_inc q)) p
    = operand (PointerBased.operator_add_assign p (Z.of_nat n)) /\
  Nat.iter n (fun q => operand (PointerBased.operator_dec q)) p
    = operand (PointerBased.operator_sub_assign p (Z.of_nat n)).
Proof.
  induction n as [| n (IH1 & IH2 & IH3 & IH4)].
  - cbn [Nat.iter nat_rect]. 
    unfold IndexedBased.operator_add_assign, IndexedBased.operator_sub_assign,
      PointerBased.operator_add_assign, PointerBased.operator_sub_assign.
    cbn [operand]. change (Z.of_nat 0) with 0.
    repeat match goal with |- _ /\ _ => split end; symmetry;
      first [ apply StepFacts.indexed_eta; lia
            | apply StepFacts.pointer_eta; lia ].
  - rewrite !Nat.iter_succ, IH1, IH2, IH3, IH4.
    unfold IndexedBased.operator_add_assign, IndexedBased.operator_sub_assign,
      IndexedBased.operator_inc, IndexedBased.operator_dec,
      PointerBased.operator_add_assign, PointerBased.operator_sub_assign,
      PointerBased.operator_inc, PointerBased.operator_dec.
    cbn [operand IndexedBased.mp_xpr IndexedBased.m_index
         PointerBased.m_ptr PointerBased.m_incr].
    repeat match goal with |- _ /\ _ => split end;
      first [ apply StepFacts.indexed_at; lia
            | apply StepFacts.pointer_at; lia ].
Qed.

Module OrderFacts.

Lemma ptr_eqb_sym {Scalar} (p q : xpr_ptr Scalar) : ptr_eqb p q = ptr_eqb q p.
Proof. destruct p, q; simpl; try reflexivity. apply Z.eqb_sym. Qed.

Lemma eigen_assert_true {A} (b : BuildMode) (k : run A) :
  eigen_assert b true k = k.
Proof. now destruct b. Qed.

Lemma ltb_scaled_pos (p s i j : Z) :
  0 < s -> (p + i * s <? p + j * s) = (i <? j).
Proof.
  intros Hs.
  destruct (Z.ltb_spec i j) as [H | H].
  - apply Z.ltb_lt. apply (Z.mul_lt_mono_pos_r s) in H; lia.
  - apply Z.ltb_ge. apply (Z.mul_le_mono_pos_r _ _ s) in H; lia.
Qed.

Lemma leb_scaled_pos (p s i j : Z) :
  0 < s -> (p + i * s <=? p + j * s) = (i <=? j).
Proof.
  intros Hs.
  destruct (Z.leb_spec i j) as [H | H].
  - apply Z.leb_le. apply (Z.mul_le_mono_pos_r _ _ s) in H; lia.
  - apply Z.leb_gt. apply (Z.mul_lt_mono_pos_r s) in H; lia.
Qed.

Lemma ltb_scaled_neg (p s i j : Z) :
  s < 0 -> (p + i * s <? p + j * s) = (j <? i).
Proof.
  intros Hs.
  replace (p + i * s) with (p + (- i) * (- s)) by lia.
  replace (p + j * s) with (p + (- j) * (- s)) by lia.
  rewrite ltb_scaled_pos by lia.
  destruct (Z.ltb_spec (- i) (- j)), (Z.ltb_spec j i); lia || reflexivity.
Qed.

Lemma leb_scaled_neg (p s i j : Z) :
  s < 0 -> (p + i * s <=? p + j * s) = (j <=? i).
Proof.
  intros Hs.
  replace (p + i * s) with (p + (- i) * (- s)) by lia.
  replace (p + j * s) with (p + (- j) * (- s)) by lia.
  rewrite leb_scaled_pos by lia.
  destruct (Z.leb_spec (- i) (- j)), (Z.leb_spec j i); lia || reflexivity.
Qed.

Lemma eqb_scaled (p s i j : Z) :
  s <> 0 -> (p + i * s =? p + j * s) = (i =? j).
Proof.
  intros Hs.
  destruct (Z.eqb_spec i j) as [-> | H].
  - apply Z.eqb_refl.
  - apply Z.eqb_neq. intros E.
    assert (E' : i * s = j * s) by lia.
    apply Z.mul_cancel_r in E'; [contradiction | assumption].
Qed.

Lemma indexed_guard_done {Scalar} (next : Index)
  (e r : effect (IndexedBased.indexed_based_stl_iterator_base Scalar)
                (IndexedBased.indexed_based_stl_iterator_base Scalar)) :
  IndexedChecked.guard next e = Done r ->
  r = e /\ Machine.representable next = true.
Proof.
  unfold IndexedChecked.guard.
  destruct (Machine.representable next); intros H; [| discriminate H].
  injection H as <-. split; reflexivity.
Qed.

Lemma pointer_guard_done (A : Machine.array)
  (it : PointerBased.pointer_based_stl_iterator) (offset : Index)
  (e r : effect PointerBased.pointer_based_stl_iterator
                PointerBased.pointer_based_stl_iterator) :
  PointerChecked.guard A it offset e = Done r ->
  r = e /\
  Machine.in_bounds A (PointerBased.m_ptr it) = true /\
  Machine.in_bounds A (PointerBased.m_ptr it + offset) = true.
Proof.
  unfold PointerChecked.guard.
  destruct (Machine.representable offset); [| intros H; discriminate H].
  destruct (Machine.in_bounds A (PointerBased.m_ptr it)); [| intros H; discriminate H].
  destruct (Machine.in_bounds A (PointerBased.m_ptr it + offset));
    intros H; [| discriminate H].
  injection H as <-. repeat split.
Qed.

(** How addresses [p + i * s] and [p + j * s] compare, by the sign of [s]. *)
Lemma order_of_scaled (p s i j : Z) :
  match s ?= 0 with
  | Gt =>
    (p + i * s <? p + j * s) = (i <? j) /\
    (p + i * s <=? p + j * s) = (i <=? j) /\
    (p + i * s =? p + j * s) = (i =? j)
  | Lt =>
    (p + i * s <? p + j * s) = (j <? i) /\
    (p + i * s <=? p + j * s) = (j <=? i) /\
    (p + i * s =? p + j * s) = (i =? j)
  | Eq =>
    (p + i * s <? p + j * s) = false /\
    (p + i * s <=? p + j * s) = true /\
    (p + i * s =? p + j * s) = true
  end.
Proof.
  destruct (Z.compare_spec s 0) as [Hs | Hs | Hs].
  - rewrite Hs, !Z.mul_0_r, !Z.add_0_r, Z.ltb_irrefl, Z.leb_refl, Z.eqb_refl.
    repeat split.
  - rewrite ltb_scaled_neg, leb_scaled_neg, eqb_scaled by lia. repeat split.
  - rewrite ltb_scaled_pos, leb_scaled_pos, eqb_scaled by lia. repeat split.
Qed.

End OrderFacts.

(** X4.  Between two index-based iterators on the same expression, in
    every build: when the difference [a - c] is representable, the six
    comparisons are those of that difference [d] with zero, and [c - a] is
    [-d] when that is representable too.  When [a - c] is not
    representable the subtraction is undefined, while the comparisons
    still answer from the indices. *)
Theorem comparisons_follow_difference {Scalar} (b : BuildMode)
  (a c : IndexedBased.indexed_based_stl_iterator_base Scalar) :
  ptr_eqb (IndexedBased.mp_xpr a) (IndexedBased.mp_xpr c) = true ->
  Machine.representable (IndexedBased.m_index a) = true ->
  Machine.representable (IndexedBased.m_index c) = true ->
  (Machine.representable (IndexedBased.m_index a - IndexedBased.m_index c) = true ->
   exists d : Index,
     IndexedChecked.operator_diff b a c = Done d /\
     IndexedBased.operator_eq b a c = Done (d =? 0) /\
     IndexedBased.operator_ne b a c = Done (negb (d =? 0)) /\
     IndexedBased.operator_lt b a c = Done (d <? 0) /\
     IndexedBased.operator_le b a c = Done (d <=? 0) /\
     IndexedBased.operator_gt b a c = Done (0 <? d) /\
     IndexedBased.operator_ge b a c = Done (0 <=? d) /\
     (Machine.representable (- d) = true ->
      IndexedChecked.operator_diff b c a = Done (- d))) /\
  (Machine.representable (IndexedBased.m_index a - IndexedBased.m_index c) = false ->
   IndexedChecked.operator_diff b a c = UndefinedBehaviour /\
   IndexedBased.operator_lt b a c
     = Done (IndexedBased.m_index a <? IndexedBased.m_index c) /\
   IndexedBased.operator_eq b a c
     = Done (IndexedBased.m_index a =? IndexedBased.m_index c)).
Proof.
  intros Hsame _ _.
  assert (Hsame' : ptr_eqb (IndexedBased.mp_xpr c) (IndexedBased.mp_xpr a) = true)
    by now rewrite OrderFacts.ptr_eqb_sym.
  unfold IndexedChecked.operator_diff, IndexedBased.operator_diff,
    IndexedBased.operator_eq, IndexedBased.operator_ne, IndexedBased.operator_lt,
    IndexedBased.operator_le, IndexedBased.operator_gt, IndexedBased.operator_ge.
  rewrite Hsame, Hsame', !OrderFacts.eigen_assert_true.
  set (i := IndexedBased.m_index a). set (j := IndexedBased.m_index c).
  split.
  - intros Hd. exists (i - j). rewrite Hd.
    split; [reflexivity |].
    split; [f_equal;
            destruct (Z.eqb_spec i j), (Z.eqb_spec (i - j) 0); lia || reflexivity |].
    split; [f_equal; f_equal;
            destruct (Z.eqb_spec i j), (Z.eqb_spec (i - j) 0); lia || reflexivity |].
    split; [f_equal;
            destruct (Z.ltb_spec i j), (Z.ltb_spec (i - j) 0); lia || reflexivity |].
    split; [f_equal;
            destruct (Z.leb_spec i j), (Z.leb_spec (i - j) 0); lia || reflexivity |].
    split; [f_equal; rewrite Z.gtb_ltb;
            destruct (Z.ltb_spec j i), (Z.ltb_spec 0 (i - j)); lia || reflexivity |].
    split; [f_equal; rewrite Z.geb_leb;
            destruct (Z.leb_spec j i), (Z.leb_spec 0 (i - j)); lia || reflexivity |].
    intros Hopp. replace (j - i) with (- (i - j)) by lia. now rewrite Hopp.
  - intros Hd. rewrite Hd. repeat split.
Qed.

Lemma comparisons_follow_difference_witness :
  let G := GenericRandAccess.generic_randaccess_stl_iterator Z in
  let a := end_ G Examples.tens in
  let c := returned (IndexedBased.operator_plus (begin G Examples.tens) 1) in
  (ptr_eqb (IndexedBased.mp_xpr a) (IndexedBased.mp_xpr c) = true /\
   Machine.representable (IndexedBased.m_index a) = true /\
   Machine.representable (IndexedBased.m_index c) = true /\
   Machine.representable (IndexedBased.m_index a - IndexedBased.m_index c) = true) /\
  exists d : Index,
    IndexedChecked.operator_diff ReleaseBuild a c = Done d /\
    IndexedBased.operator_gt ReleaseBuild a c = Done (0 <? d).
Proof.
  set (a := end_ (GenericRandAccess.generic_randaccess_stl_iterator Z) Examples.tens).
  set (c := returned (IndexedBased.operator_plus
                        (begin (GenericRandAccess.generic_randaccess_stl_iterator Z)
                               Examples.tens) 1)).
  assert (Hsame : ptr_eqb (IndexedBased.mp_xpr a) (IndexedBased.mp_xpr c) = true)
    by reflexivity.
  assert (Hrep : Machine.representable
                   (IndexedBased.m_index a - IndexedBased.m_index c) = true)
    by reflexivity.
  split; [repeat split |].
  destruct (proj1 (comparisons_follow_difference ReleaseBuild a c Hsame
                     eq_refl eq_refl) Hrep)
    as (d & Hd & _ & _ & _ & _ & Hgt & _).
  exists d. split; [exact Hd | exact Hgt].
Defined.

(** X5.  The six comparisons of index-based iterators stop on the
    assertion exactly when the build is a debug build and the two
    expression pointers differ, and are never undefined.  The difference
    stops on the assertion under the same condition; past the assertion,
    or in a release build, it is undefined exactly when the subtraction of
    the two indices is not representable. *)
Theorem assertion_exactly_on_mismatch {Scalar} (b : BuildMode)
  (a c : IndexedBased.indexed_based_stl_iterator_base Scalar) :
  Machine.representable (IndexedBased.m_index a) = true ->
  Machine.representable (IndexedBased.m_index c) = true ->
  let mismatch :=
    b = DebugBuild /\
    ptr_eqb (IndexedBased.mp_xpr a) (IndexedBased.mp_xpr c) = false in
  (forall r, In r (Guards.comparisons b a c) ->
     (r = AssertionFailed <-> mismatch) /\ r <> UndefinedBehaviour) /\
  (IndexedChecked.operator_diff b a c = AssertionFailed <-> mismatch) /\
  (IndexedChecked.operator_diff b a c = UndefinedBehaviour <->
   ~ mismatch /\
   Machine.representable (IndexedBased.m_index a - IndexedBased.m_index c) = false).
Proof.
  intros _ _ mismatch. subst mismatch.
  unfold Guards.comparisons, IndexedChecked.operator_diff,
    IndexedBased.operator_diff, IndexedBased.operator_eq,
    IndexedBased.operator_ne, IndexedBased.operator_lt, IndexedBased.operator_le,
    IndexedBased.operator_gt, IndexedBased.operator_ge.
  split; [| split].
  - intros r Hin.
    destruct b, (ptr_eqb (IndexedBased.mp_xpr a) (IndexedBased.mp_xpr c));
      cbn [eigen_assert Cxx.map In] in Hin;
      repeat (destruct Hin as [<- | Hin]); try contradiction;
      intuition congruence.
  - destruct b, (ptr_eqb (IndexedBased.mp_xpr a) (IndexedBased.mp_xpr c));
      cbn [eigen_assert];
      destruct (Machine.representable
                  (IndexedBased.m_index a - IndexedBased.m_index c));
      intuition congruence.
  - destruct b, (ptr_eqb (IndexedBased.mp_xpr a) (IndexedBased.mp_xpr c));
      cbn [eigen_assert];
      destruct (Machine.representable
                  (IndexedBased.m_index a - IndexedBased.m_index c));
      intuition congruence.
Qed.

Lemma assertion_exactly_on_mismatch_witness :
  let a := GenericRandAccess.ctor Examples.forward 0 in
  let c := GenericRandAccess.ctor Examples.tens 3 in
  let r := Cxx.map (fun _ => tt) (IndexedBased.operator_lt ReleaseBuild a c) in
  (Machine.representable (IndexedBased.m_index a) = true /\
   Machine.representable (IndexedBased.m_index c) = true /\
   In r (Guards.comparisons ReleaseBuild a c)) /\
  r <> AssertionFailed /\ r <> UndefinedBehaviour.
Proof.
  assert (Hin : In (Cxx.map (fun _ => tt)
                      (IndexedBased.operator_lt ReleaseBuild
                         (GenericRandAccess.ctor Examples.forward 0)
                         (GenericRandAccess.ctor Examples.tens 3)))
                   (Guards.comparisons ReleaseBuild
                      (GenericRandAccess.ctor Examples.forward 0)
                      (GenericRandAccess.ctor Examples.tens 3))).
  { right. right. left. reflexivity. }
  split; [split; [reflexivity | split; [reflexivity | exact Hin]] |].
  destruct (proj1 (assertion_exactly_on_mismatch ReleaseBuild
                     (GenericRandAccess.ctor Examples.forward 0)
                     (GenericRandAccess.ctor Examples.tens 3) eq_refl eq_refl)
              _ Hin) as [Hiff Hub].
  split; [| exact Hub].
  intros E. destruct (proj1 Hiff E) as [Hb _]. discriminate Hb.
Defined.

(** X6.  The pointer-based iterator orders by address.  When [it + i]
    and [it + j] are both formed within the array the iterator points
    into, they compare as [i] against [j] for a positive stride, the other
    way round for a negative stride (equality still follows the indices),
    and all positions coincide for a zero stride. *)
Theorem pointer_order_by_stride (A : Machine.array)
  (it : PointerBased.pointer_based_stl_iterator) (i j : Index)
  (ra rc : effect PointerBased.pointer_based_stl_iterator
                  PointerBased.pointer_based_stl_iterator) :
  Machine.representable (PointerBased.m_incr it) = true ->
  PointerChecked.operator_plus A it i = Done ra ->
  PointerChecked.operator_plus A it j = Done rc ->
  let a := returned ra in
  let c := returned rc in
  match PointerBased.m_incr it ?= 0 with
  | Gt =>
    PointerBased.operator_lt a c = Done (i <? j) /\
    PointerBased.operator_le a c = Done (i <=? j) /\
    PointerBased.operator_gt a c = Done (j <? i) /\
    PointerBased.operator_ge a c = Done (j <=? i) /\
    PointerBased.operator_eq a c = Done (i =? j) /\
    PointerBased.operator_ne a c = Done (negb (i =? j))
  | Lt =>
    PointerBased.operator_lt a c = Done (j <? i) /\
    PointerBased.operator_le a c = Done (j <=? i) /\
    PointerBased.operator_gt a c = Done (i <? j) /\
    PointerBased.operator_ge a c = Done (i <=? j) /\
    PointerBased.operator_eq a c = Done (i =? j) /\
    PointerBased.operator_ne a c = Done (negb (i =? j))
  | Eq =>
    PointerBased.operator_lt a c = Done false /\
    PointerBased.operator_le a c = Done true /\
    PointerBased.operator_gt a c = Done false /\
    PointerBased.operator_ge a c = Done true /\
    PointerBased.operator_eq a c = Done true /\
    PointerBased.operator_ne a c = Done false
  end.
Proof.
  unfold PointerChecked.operator_plus. intros _ Ha Hc.
  apply OrderFacts.pointer_guard_done in Ha. destruct Ha as [-> _].
  apply OrderFacts.pointer_guard_done in Hc. destruct Hc as [-> _].
  cbv zeta.
  unfold PointerBased.operator_lt, PointerBased.operator_le,
    PointerBased.operator_gt, PointerBased.operator_ge,
    PointerBased.operator_eq, PointerBased.operator_ne,
    PointerBased.operator_plus, PointerBased.operator_add_assign.
  cbn [operand returned PointerBased.m_ptr PointerBased.m_incr].
  set (p := PointerBased.m_ptr it). set (s := PointerBased.m_incr it).
  rewrite Z.gtb_ltb, Z.geb_leb.
  pose proof (OrderFacts.order_of_scaled p s i j) as Hij.
  pose proof (OrderFacts.order_of_scaled p s j i) as Hji.
  destruct (s ?= 0);
    destruct Hij as (Hlt & Hle & Heq); destruct Hji as (Hlt' & Hle' & _);
    rewrite Hlt, Hle, Heq, Hlt', Hle'; repeat split.
Qed.

Lemma pointer_order_by_stride_witness :
  let A := {| Machine.first := 100; Machine.length := 4; Machine.element_size := 8 |} in
  let it := PointerBased.ctor Examples.backward 0 in
  (Machine.representable (PointerBased.m_incr it) = true /\
   PointerChecked.operator_plus A it 1 = Done (PointerBased.operator_plus it 1) /\
   PointerChecked.operator_plus A it 3 = Done (PointerBased.operator_plus it 3)) /\
  PointerBased.operator_lt (returned (PointerBased.operator_plus it 1))
                           (returned (PointerBased.operator_plus it 3))
    = Done false /\
  PointerBased.operator_eq (returned (PointerBased.operator_plus it 1))
                           (returned (PointerBased.operator_plus it 3))
    = Done false.
Proof.
  split; [repeat split |].
  pose proof (pointer_order_by_stride
                {| Machine.first := 100; Machine.length := 4;
                   Machine.element_size := 8 |}
                (PointerBased.ctor Examples.backward 0) 1 3 _ _
                eq_refl eq_refl eq_refl) as H.
  cbv zeta in H. destruct H as (Hlt & _ & _ & _ & Heq & _).
  split; [exact Hlt | exact Heq].
Defined.

(** X7.  On a pointer-based iterator with a nonzero stride, of either
    sign, when [it + i] and [it + j] are both formed within the array the
    iterator points into, [(it + i) - (it + j)] is [i - j].  Between two
    iterators of one stride the difference changes sign when the operands
    are swapped, and is undefined one way round exactly when it is the
    other way round. *)
Theorem pointer_difference_of_offsets (A : Machine.array)
  (it c : PointerBased.pointer_based_stl_iterator) (i j : Index)
  (ra rc : effect PointerBased.pointer_based_stl_iterator
                  PointerBased.pointer_based_stl_iterator) :
  (PointerBased.m_incr it <> 0 ->
   Machine.representable (PointerBased.m_incr it) = true ->
   PointerChecked.operator_plus A it i = Done ra ->
   PointerChecked.operator_plus A it j = Done rc ->
   PointerChecked.operator_diff A (returned ra) (returned rc) = Done (i - j)) /\
  (PointerBased.m_incr c = PointerBased.m_incr it ->
   PointerChecked.operator_diff A c it
     = Cxx.map Z.opp (PointerChecked.operator_diff A it c)).
Proof.
  split.
  - unfold PointerChecked.operator_plus. intros Hs _ Ha Hc.
    apply OrderFacts.pointer_guard_done in Ha. destruct Ha as (-> & _ & Hpa).
    apply OrderFacts.pointer_guard_done in Hc. destruct Hc as (-> & _ & Hpc).
    unfold PointerChecked.operator_diff.
    cbn [PointerBased.operator_plus PointerBased.operator_add_assign operand
         returned PointerBased.m_ptr PointerBased.m_incr].
    rewrite Hpa, Hpc. cbn [andb].
    pose proof (MachineFacts.in_bounds_apart A _ _ Hpa Hpc) as Hspan.
    rewrite MachineFacts.index_max_value in Hspan.
    replace (PointerBased.m_ptr it + i * PointerBased.m_incr it
             - (PointerBased.m_ptr it + j * PointerBased.m_incr it))
      with ((i - j) * PointerBased.m_incr it) in * by lia.
    rewrite MachineFacts.div_defined.
    + now rewrite Z.quot_mul.
    + exact Hs.
    + rewrite MachineFacts.index_min_value. lia.
  - intros Hc. unfold PointerChecked.operator_diff. rewrite Hc.
    destruct (Machine.in_bounds A (PointerBased.m_ptr it)) eqn:Hp;
      destruct (Machine.in_bounds A (PointerBased.m_ptr c)) eqn:Hq;
      cbn [andb Cxx.map]; try reflexivity.
    pose proof (MachineFacts.in_bounds_apart A _ _ Hp Hq) as Hspan.
    rewrite MachineFacts.index_max_value in Hspan.
    destruct (Z.eq_dec (PointerBased.m_incr it) 0) as [Hz | Hnz].
    + unfold Machine.div. rewrite Hz. reflexivity.
    + rewrite !MachineFacts.div_defined
        by (try assumption; rewrite MachineFacts.index_min_value; lia).
      cbn [Cxx.map]. f_equal.
      rewrite <- Z.quot_opp_l by assumption. f_equal. lia.
Qed.

Lemma pointer_difference_of_offsets_witness :
  let A := {| Machine.first := 100; Machine.length := 4; Machine.element_size := 8 |} in
  let it := PointerBased.ctor Examples.backward 0 in
  (PointerBased.m_incr it <> 0 /\
   Machine.representable (PointerBased.m_incr it) = true /\
   PointerChecked.operator_plus A it 3 = Done (PointerBased.operator_plus it 3) /\
   PointerChecked.operator_plus A it 1 = Done (PointerBased.operator_plus it 1)) /\
  PointerChecked.operator_diff A (returned (PointerBased.operator_plus it 3))
                                 (returned (PointerBased.operator_plus it 1))
    = Done 2.
Proof.
  assert (S : PointerBased.m_incr (PointerBased.ctor Examples.backward 0) <> 0)
    by (simpl; lia).
  split; [split; [exact S | repeat split] |].
  exact (proj1 (pointer_difference_of_offsets
                  {| Machine.first := 100; Machine.length := 4;
                     Machine.element_size := 8 |}
                  (PointerBased.ctor Examples.backward 0)
                  (PointerBased.ctor Examples.backward 0) 3 1 _ _)
           S eq_refl eq_refl eq_refl).
Defined.

(** X8.  Offset-indexing is dereferencing after an offset: on each of the
    three iterator classes [it[i]] is [*(it + i)], and [it[0]] is [*it]. *)
Theorem index_is_star_of_offset {Scalar} (m : memory Scalar) (d : DirectionType)
  (p : PointerBased.pointer_based_stl_iterator)
  (g : GenericRandAccess.generic_randaccess_stl_iterator Scalar)
  (v : SubVectorIter.subvector_stl_iterator Scalar d) (i : Index) :
  (PointerBased.operator_index (Scalar := Scalar) p i
     = PointerBased.operator_star (returned (PointerBased.operator_plus p i)) /\
   PointerBased.operator_index (Scalar := Scalar) p 0
     = PointerBased.operator_star p) /\
  (GenericRandAccess.operator_index m g i
     = GenericRandAccess.operator_star m (returned (IndexedBased.operator_plus g i)) /\
   GenericRandAccess.operator_index m g 0 = GenericRandAccess.operator_star m g) /\
  (SubVectorIter.operator_index v i
     = SubVectorIter.operator_star (d := d)
         (returned (IndexedBased.operator_plus v i)) /\
   SubVectorIter.operator_index v 0 = SubVectorIter.operator_star v).
Proof.
  split; [| split]; split.
  - reflexivity.
  - unfold PointerBased.operator_index, PointerBased.operator_star.
    f_equal. lia.
  - reflexivity.
  - unfold GenericRandAccess.operator_index, GenericRandAccess.operator_star.
    now rewrite Z.add_0_r.
  - reflexivity.
  - unfold SubVectorIter.operator_index, SubVectorIter.operator_star.
    now rewrite Z.add_0_r.
Qed.

Module LoopFacts.

(** A loop over positions [at_ lo], [at_ (lo+1)], ... up to [at_ hi],
    where stepping moves to the next position and the loop test tells
    positions apart, collects what dereferencing gives at [lo], ...,
    [hi - 1]. *)
Lemma loop_positions {It V : Type} (ne : It -> It -> run bool) (star : It -> run V)
  (inc : It -> It) (at_ : Z -> It) (v : Z -> V) (hi : Z) :
  (forall i, inc (at_ i) = at_ (i + 1)) ->
  (forall i, star (at_ i) = Done (v i)) ->
  (forall i, ne (at_ i) (at_ hi) = Done (negb (i =? hi))) ->
  forall (n : nat) (lo : Z) (fuel : nat),
    lo + Z.of_nat n = hi ->
    (n < fuel)%nat ->
    Traversal.loop ne star inc fuel (at_ lo) (at_ hi)
    = Some (Done (List.map (fun k => v (lo + Z.of_nat k)) (seq 0 n))).
Proof.
  intros Hinc Hstar Hne.
  induction n as [| n IH]; intros lo fuel Hhi Hfuel;
    (destruct fuel as [| fuel]; [lia |]); cbn [Traversal.loop]; rewrite Hne.
  - replace (lo =? hi) with true by (symmetry; apply Z.eqb_eq; lia).
    reflexivity.
  - replace (lo =? hi) with false by (symmetry; apply Z.eqb_neq; lia).
    cbn [negb]. rewrite Hstar, Hinc, (IH (lo + 1) fuel) by lia.
    f_equal. f_equal. cbn [seq List.map]. rewrite Z.add_0_r. f_equal.
    rewrite <- seq_shift, List.map_map.
    apply List.map_ext. intros k. f_equal. lia.
Qed.

Lemma pointer_inc_ctor {Scalar} (X : Xpr Scalar) (i : Index) :
  operand (PointerBased.operator_inc (PointerBased.ctor X i))
  = PointerBased.ctor X (i + 1).
Proof.
  unfold PointerBased.operator_inc, PointerBased.ctor.
  cbn [operand PointerBased.m_ptr PointerBased.m_incr]. f_equal. lia.
Qed.

Lemma pointer_ne_ctor {Scalar} (X : Xpr Scalar) (i j : Index) :
  innerStride X <> 0 ->
  PointerBased.operator_ne (PointerBased.ctor X i) (PointerBased.ctor X j)
  = Done (negb (i =? j)).
Proof.
  intros Hs. unfold PointerBased.operator_ne, PointerBased.ctor.
  cbn [PointerBased.m_ptr]. now rewrite OrderFacts.eqb_scaled.
Qed.

Lemma derived_xpr {Scalar}
  (it j : IndexedBased.indexed_based_stl_iterator_base Scalar) :
  IndexedBased.derived_from it j ->
  IndexedBased.mp_xpr j = IndexedBased.mp_xpr it.
Proof.
  intros Hj. induction Hj as [| op j _ IH | op j _ IH].
  - reflexivity.
  - rewrite <- IH. now destruct op.
  - rewrite <- IH. now destruct op.
Qed.

End LoopFacts.

(** X9.  Walking [begin()] to [end()] with the evaluated-index iterator
    over an expression of [n >= 0] elements ends, in every build, after
    [n + 1] tests, and collects the by-index accesses at 0, ..., n-1 in
    this order: the element values of the expression. *)
Theorem generic_traversal {Scalar} (b : BuildMode) (m : memory Scalar)
  (X : Xpr Scalar) (fuel : nat) :
  0 <= size X ->
  (Z.to_nat (size X) < fuel)%nat ->
  exists xs,
    Traversal.generic_elements fuel b m X = Some (Done xs) /\
    xs = List.map (fun k => call X m (Z.of_nat k)) (seq 0 (Z.to_nat (size X))) /\
    List.map (read m) xs
    = List.map (fun k => elementAt m X (Z.of_nat k)) (seq 0 (Z.to_nat (size X))).
Proof.
  intros Hn Hfuel. eexists. split; [| split; [reflexivity |]].
  - unfold Traversal.generic_elements, begin, end_, construct, generic_randaccess,
      GenericRandAccess.ctor.
    rewrite (LoopFacts.loop_positions _ _ _
               (fun i => IndexedBased.ctor X i) (fun i => call X m i) (size X))
      with (n := Z.to_nat (size X)); try lia.
    + reflexivity.
    + reflexivity.
    + reflexivity.
    + intros i. apply Facts.operator_ne_same_xpr.
  - now rewrite List.map_map.
Qed.

Lemma generic_traversal_witness :
  (0 <= size Examples.tens /\ (Z.to_nat (size Examples.tens) < 5)%nat) /\
  exists xs,
    Traversal.generic_elements 5 DebugBuild Examples.ascending Examples.tens
      = Some (Done xs) /\
    List.map (read Examples.ascending) xs = [10; 20; 30; 40].
Proof.
  assert (Hn : 0 <= size Examples.tens) by (simpl; lia).
  assert (Hf : (Z.to_nat (size Examples.tens) < 5)%nat) by (simpl; lia).
  split; [split; assumption |].
  destruct (generic_traversal DebugBuild Examples.ascending Examples.tens 5 Hn Hf)
    as (xs & Hrun & _ & Hval).
  exists xs. split; [exact Hrun | exact Hval].
Defined.

(** X10.  Walking [begin()] to [end()] with the pointer-based iterator
    over [n >= 0] elements: when the inner stride is not zero the loop ends
    after [n + 1] tests and visits the cells [data() + k * innerStride()],
    k = 0, ..., n-1, which hold the elements of a directly addressable
    expression in logical order; when the inner stride is zero the loop
    visits nothing, whatever [n]. *)
Theorem pointer_traversal {Scalar} (m : memory Scalar) (X : Xpr Scalar)
  (fuel : nat) :
  0 <= size X ->
  (Z.to_nat (size X) < fuel)%nat ->
  (innerStride X <> 0 ->
   Traversal.pointer_elements fuel X
   = Some (Done (List.map (fun k => lvalue (data X + Z.of_nat k * innerStride X))
                   (seq 0 (Z.to_nat (size X))))) /\
   (direct_access m X ->
    List.map (fun k => m (data X + Z.of_nat k * innerStride X))
      (seq 0 (Z.to_nat (size X)))
    = List.map (fun k => elementAt m X (Z.of_nat k)) (seq 0 (Z.to_nat (size X))))) /\
  (innerStride X = 0 ->
   Traversal.pointer_elements (Scalar := Scalar) fuel X = Some (Done [])).
Proof.
  intros Hn Hfuel. split.
  - intros Hs. split.
    + unfold Traversal.pointer_elements, begin, end_, construct, pointer_based.
      rewrite (LoopFacts.loop_positions _ _ _
                 (fun i => PointerBased.ctor X i)
                 (fun i => lvalue (data X + i * innerStride X)) (size X))
        with (n := Z.to_nat (size X)); try lia.
      * reflexivity.
      * intros i. apply LoopFacts.pointer_inc_ctor.
      * reflexivity.
      * intros i. now apply LoopFacts.pointer_ne_ctor.
    + intros [_ Hlayout]. apply List.map_ext_in. intros k Hk.
      apply in_seq in Hk. symmetry. apply Hlayout. lia.
  - intros Hz. destruct fuel as [| fuel]; [lia |].
    unfold Traversal.pointer_elements, begin, end_, construct, pointer_based,
      PointerBased.ctor.
    cbn [Traversal.loop]. unfold PointerBased.operator_ne.
    cbn [PointerBased.m_ptr]. rewrite Hz, !Z.mul_0_r, Z.eqb_refl.
    reflexivity.
Qed.

Lemma pointer_traversal_witness :
  (0 <= size Examples.backward /\ (Z.to_nat (size Examples.backward) < 5)%nat /\
   innerStride Examples.backward <> 0 /\
   direct_access Examples.descending Examples.backward) /\
  Traversal.pointer_elements (Scalar := Z) 5 Examples.backward
    = Some (Done [lvalue 103; lvalue 102; lvalue 101; lvalue 100]) /\
  List.map (fun k => Examples.descending (103 + Z.of_nat k * -1)) (seq 0 4)
    = [10; 20; 30; 40] /\
  (innerStride Examples.broadcast = 0 /\
   Traversal.pointer_elements (Scalar := Z) 5 Examples.broadcast = Some (Done [])).
Proof.
  assert (Hn : 0 <= size Examples.backward) by (simpl; lia).
  assert (Hf : (Z.to_nat (size Examples.backward) < 5)%nat) by (simpl; lia).
  assert (Hs : innerStride Examples.backward <> 0) by (simpl; lia).
  assert (D : direct_access Examples.descending Examples.backward).
  { split; [reflexivity | intros k _; reflexivity]. }
  assert (Hn' : 0 <= size Examples.broadcast) by (simpl; lia).
  assert (Hf' : (Z.to_nat (size Examples.broadcast) < 5)%nat) by (simpl; lia).
  split; [repeat split; assumption || apply D |].
  destruct (proj1 (pointer_traversal Examples.descending Examples.backward 5 Hn Hf) Hs)
    as [Hrun Hval].
  split; [exact Hrun | split; [exact (Hval D) |]].
  split; [reflexivity |].
  exact (proj2 (pointer_traversal Examples.descending Examples.broadcast 5 Hn' Hf')
           eq_refl).
Defined.



(** X12.  The read-only entry points.  [begin() const] and [end() const]
    are [cbegin()] and [cend()].  With the evaluated-index iterator,
    [cend() - cbegin()] is the element count and dereferencing at
    [cbegin() + k] gives a copy of the element read at [k], never a
    reference, whether or not the expression itself is an lvalue.  With the
    pointer-based iterator [cbegin()] and [cend()] stand on the same cells
    as [begin()] and [end()], and the [reference] typedef is the read-only
    reference. *)
Theorem const_entry_points {Scalar} (b : BuildMode) (m : memory Scalar)
  (X : Xpr Scalar) (k : Index) :
  let G := GenericRandAccess.generic_randaccess_stl_iterator Scalar in
  let P := PointerBased.pointer_based_stl_iterator in
  (ConstEntry.begin_const G X = cbegin G X /\ ConstEntry.end_const G X = cend G X) /\
  (IndexedBased.operator_diff b (cend G X) (cbegin G X) = Done (size X) /\
   IndexedBased.operator_eq b (cbegin G X) (cend G X) = Done (size X =? 0) /\
   GenericRandAccess.operator_star m
     (returned (IndexedBased.operator_plus (cbegin G X) k))
     = Done (prvalue (coeff X m k)) /\
   GenericRandAccess.reference (traits (add_const X)) = const_value_type) /\
  (cbegin P X = begin P X /\
   cend P X = end_ P X /\
   PointerBased.reference (traits (add_const X)) = const_value_type_ref).
Proof.
  intros G P. split; [split; reflexivity | split].
  - unfold cbegin, cend, construct, generic_randaccess, GenericRandAccess.ctor,
      IndexedBased.operator_diff, IndexedBased.operator_eq,
      GenericRandAccess.operator_star, IndexedBased.operator_plus,
      IndexedBased.operator_add_assign, IndexedBased.ctor.
    cbn [operand returned IndexedBased.mp_xpr IndexedBased.m_index add_const size
         ptr_eqb this].
    rewrite Z.eqb_refl, !OrderFacts.eigen_assert_true, Z.sub_0_r, Z.add_0_l.
    rewrite (Z.eqb_sym 0 (size X)).
    repeat split.
  - repeat split.
Qed.

(** X13.  For the row-wise or column-wise range of an expression,
    [end() - begin()] is the number of sub-vectors in that direction and
    [begin() == end()] holds exactly when it is zero, in every build;
    [cbegin()] and [cend()] stand at the same indices; [begin()[k]] is
    the [k]-th sub-vector; and over an expression without sub-vectors the
    traversal collects nothing. *)
Theorem proxy_range_extent {Scalar} (b : BuildMode) (d : DirectionType)
  (X : Xpr Scalar) (k : Index) (fuel : nat) :
  let R : Proxy.SubVectorsProxy Scalar d := {| Proxy.m_xpr := X |} in
  IndexedBased.operator_diff b (Proxy.end_ R) (Proxy.begin R)
    = Done (subVectors d X) /\
  IndexedBased.operator_eq b (Proxy.begin R) (Proxy.end_ R)
    = Done (subVectors d X =? 0) /\
  IndexedBased.m_index (Proxy.cbegin R) = IndexedBased.m_index (Proxy.begin R) /\
  IndexedBased.m_index (Proxy.cend R) = IndexedBased.m_index (Proxy.end_ R) /\
  SubVectorIter.operator_index (Proxy.begin R) k = Done (subVector d X k) /\
  (subVectors d X = 0 -> Proxy.views (S fuel) b R = Some (Done [])).
Proof.
  intros R. subst R.
  unfold Proxy.views, Proxy.begin, Proxy.end_, Proxy.cbegin, Proxy.cend,
    SubVectorIter.ctor, IndexedBased.ctor, IndexedBased.operator_diff,
    IndexedBased.operator_eq, SubVectorIter.operator_index.
  cbn [Proxy.m_xpr IndexedBased.mp_xpr IndexedBased.m_index ptr_eqb].
  rewrite Z.eqb_refl, !OrderFacts.eigen_assert_true, Z.sub_0_r, Z.add_0_l.
  rewrite (Z.eqb_sym 0 (subVectors d X)).
  split; [reflexivity | split; [reflexivity | split; [reflexivity |]]].
  split; [reflexivity | split; [reflexivity |]].
  intros Hz. rewrite Hz. cbn [Proxy.range_for].
  unfold IndexedBased.operator_ne.
  cbn [IndexedBased.mp_xpr IndexedBased.m_index ptr_eqb].
  rewrite Z.eqb_refl, OrderFacts.eigen_assert_true. reflexivity.
Qed.

Lemma proxy_range_extent_witness :
  let E := Examples.table 1007 0 2 (fun i j => i + j) in
  subVectors Horizontal E = 0 /\
  Proxy.views 1 DebugBuild (Proxy.allRows E) = Some (Done []).
Proof.
  split; [reflexivity |].
  destruct (proxy_range_extent DebugBuild Horizontal
              (Examples.table 1007 0 2 (fun i j => i + j)) 0 0)
    as (_ & _ & _ & _ & _ & H).
  exact (H eq_refl).
Defined.

(** X14.  Writing through a dereferenced iterator.  On an lvalue
    expression, [*it = v] with the evaluated-index iterator at index [k]
    stores [v] in the cell of element [k]: by-index access at [k] and a
    second dereference both read [v] afterwards, and an element living in
    another cell keeps its value.  When element [k] lives at
    [data() + k * innerStride()], the pointer-based iterator at [k] writes
    the same cell.  On an expression that is not an lvalue the dereference
    is a temporary and cannot be assigned to. *)
Theorem write_through_reference {Scalar} (m : memory Scalar) (X : Xpr Scalar)
  (k : Index) (v : Scalar) :
  let g := GenericRandAccess.ctor X k in
  let m' := Assign.store m (coeffRef X k) v in
  (is_lvalue (traits X) = true ->
   Assign.through m (GenericRandAccess.operator_star m g) v = Some m' /\
   elementAt m' X k = v /\
   Cxx.map (read m') (GenericRandAccess.operator_star m' g) = Done v /\
   (forall j, coeffRef X j <> coeffRef X k -> elementAt m' X j = elementAt m X j) /\
   (coeffRef X k = data X + k * innerStride X ->
    Assign.assign m (PointerBased.operator_star (PointerBased.ctor X k)) v
    = Some m')) /\
  (is_lvalue (traits X) = false ->
   Assign.through m (GenericRandAccess.operator_star m g) v = None).
Proof.
  intros g m'. subst g m'.
  unfold GenericRandAccess.operator_star, GenericRandAccess.ctor, IndexedBased.ctor,
    elementAt, call.
  cbn [IndexedBased.mp_xpr IndexedBased.m_index].
  split; intros ->; cbn [Assign.through Assign.assign Cxx.map read].
  - unfold Assign.store. rewrite Z.eqb_refl.
    split; [reflexivity | split; [reflexivity | split; [reflexivity | split]]].
    + intros j Hj. destruct (Z.eqb_spec (coeffRef X j) (coeffRef X k)) as [E | _];
        [contradiction | reflexivity].
    + intros Hcell. unfold PointerBased.operator_star, PointerBased.ctor.
      cbn [PointerBased.m_ptr]. now rewrite <- Hcell.
  - reflexivity.
Qed.

Lemma write_through_reference_witness :
  let X := Examples.forward in
  let m := Examples.ascending in
  let m' := Assign.store m 102 7 in
  (is_lvalue (traits X) = true /\ coeffRef X 2 = data X + 2 * innerStride X) /\
  Assign.through m (GenericRandAccess.operator_star m (GenericRandAccess.ctor X 2)) 7
    = Some m' /\
  elementAt m' X 2 = 7 /\
  Assign.assign m (PointerBased.operator_star (PointerBased.ctor X 2)) 7 = Some m' /\
  (is_lvalue (traits Examples.tens) = false /\
   Assign.through m
     (GenericRandAccess.operator_star m (GenericRandAccess.ctor Examples.tens 2)) 7
   = None).
Proof.
  split; [split; reflexivity |].
  destruct (proj1 (write_through_reference Examples.ascending Examples.forward 2 7)
              eq_refl) as (H1 & H2 & _ & _ & H5).
  split; [exact H1 | split; [exact H2 | split; [exact (H5 eq_refl) |]]].
  split; [reflexivity |].
  exact (proj2 (write_through_reference Examples.ascending Examples.tens 2 7) eq_refl).
Defined.

(** X15.  On an index-based iterator, bound or not, when [it + i] and
    [it + j] are both formed without overflow they compare as [i] against
    [j], in every build and without tripping the assertion, and their
    difference is [i - j] when that is representable. *)
Theorem indexed_order_of_offsets {Scalar} (b : BuildMode)
  (it : IndexedBased.indexed_based_stl_iterator_base Scalar) (i j : Index)
  (ra rc : effect (IndexedBased.indexed_based_stl_iterator_base Scalar)
                  (IndexedBased.indexed_based_stl_iterator_base Scalar)) :
  Machine.representable (IndexedBased.m_index it) = true ->
  IndexedChecked.operator_plus it i = Done ra ->
  IndexedChecked.operator_plus it j = Done rc ->
  let a := returned ra in
  let c := returned rc in
  IndexedBased.operator_eq b a c = Done (i =? j) /\
  IndexedBased.operator_ne b a c = Done (negb (i =? j)) /\
  IndexedBased.operator_lt b a c = Done (i <? j) /\
  IndexedBased.operator_le b a c = Done (i <=? j) /\
  IndexedBased.operator_gt b a c = Done (j <? i) /\
  IndexedBased.operator_ge b a c = Done (j <=? i) /\
  (Machine.representable (i - j) = true ->
   IndexedChecked.operator_diff b a c = Done (i - j)).
Proof.
  unfold IndexedChecked.operator_plus. intros _ Ha Hc.
  apply OrderFacts.indexed_guard_done in Ha. destruct Ha as [-> _].
  apply OrderFacts.indexed_guard_done in Hc. destruct Hc as [-> _].
  cbv zeta.
  unfold IndexedChecked.operator_diff, IndexedBased.operator_diff,
    IndexedBased.operator_eq,
    IndexedBased.operator_ne, IndexedBased.operator_lt, IndexedBased.operator_le,
    IndexedBased.operator_gt, IndexedBased.operator_ge,
    IndexedBased.operator_plus, IndexedBased.operator_add_assign.
  cbn [operand returned IndexedBased.mp_xpr IndexedBased.m_index].
  rewrite !Facts.eigen_assert_same, Z.gtb_ltb, Z.geb_leb.
  set (x := IndexedBased.m_index it).
  repeat match goal with |- _ /\ _ => split end;
    try (apply (f_equal Done);
         repeat match goal with
                | |- context [?u <? ?w] => destruct (Z.ltb_spec u w)
                | |- context [?u <=? ?w] => destruct (Z.leb_spec u w)
                | |- context [?u =? ?w] => destruct (Z.eqb_spec u w)
                end;
         reflexivity || lia).
  intros Hd. replace (x + i - (x + j)) with (i - j) by lia. now rewrite Hd.
Qed.

Lemma indexed_order_of_offsets_witness :
  let it := GenericRandAccess.ctor Examples.tens 1 in
  (Machine.representable (IndexedBased.m_index it) = true /\
   IndexedChecked.operator_plus it 2 = Done (IndexedBased.operator_plus it 2) /\
   IndexedChecked.operator_plus it (-1) = Done (IndexedBased.operator_plus it (-1)) /\
   Machine.representable (2 - -1) = true) /\
  IndexedBased.operator_lt DebugBuild
    (returned (IndexedBased.operator_plus it 2))
    (returned (IndexedBased.operator_plus it (-1))) = Done false /\
  IndexedChecked.operator_diff DebugBuild
    (returned (IndexedBased.operator_plus it 2))
    (returned (IndexedBased.operator_plus it (-1))) = Done 3.
Proof.
  split; [repeat split |].
  pose proof (indexed_order_of_offsets DebugBuild
                (GenericRandAccess.ctor Examples.tens 1) 2 (-1) _ _
                eq_refl eq_refl eq_refl) as H.
  cbv zeta in H. destruct H as (_ & _ & Hlt & _ & _ & _ & Hdiff).
  split; [exact Hlt | exact (Hdiff eq_refl)].
Defined.

(** X16.  The ranges of a const expression, [allRows() const] and
    [allCols() const], are traversed like those of the expression itself:
    as many views, in the same order, each with the same elements; their
    iterators yield the read-only view types. *)
Theorem const_ranges {Scalar} (b : BuildMode) (m : memory Scalar)
  (X : Xpr Scalar) (fuel : nat) :
  0 <= rows X ->
  0 <= cols X ->
  (Z.to_nat (rows X) < fuel)%nat ->
  (Z.to_nat (cols X) < fuel)%nat ->
  (Proxy.views fuel b (ConstEntry.allRows_const X)
   = Some (Done (List.map (fun k => subVector Horizontal (add_const X) (Z.of_nat k))
                   (seq 0 (Z.to_nat (rows X))))) /\
   Proxy.views fuel b (ConstEntry.allCols_const X)
   = Some (Done (List.map (fun k => subVector Vertical (add_const X) (Z.of_nat k))
                   (seq 0 (Z.to_nat (cols X)))))) /\
  (forall d k j,
     sub_size (subVector d (add_const X) k) = sub_size (subVector d X k) /\
     sub_coeff m (subVector d (add_const X) k) j = sub_coeff m (subVector d X k) j) /\
  SubVectorIter.value_type (traits (add_const X)) Horizontal = SubVectorIter.ConstRowXpr /\
  SubVectorIter.value_type (traits (add_const X)) Vertical = SubVectorIter.ConstColXpr.
Proof.
  intros Hr Hc Hfr Hfc. split; [split | split; [| split; reflexivity]].
  - now apply (RangeFacts.views_all Horizontal b (add_const X)).
  - now apply (RangeFacts.views_all Vertical b (add_const X)).
  - intros d k j. destruct d; split; reflexivity.
Qed.

Lemma const_ranges_witness :
  let X := Examples.grid in
  (0 <= rows X /\ 0 <= cols X /\
   (Z.to_nat (rows X) < 4)%nat /\ (Z.to_nat (cols X) < 4)%nat) /\
  Proxy.views 4 ReleaseBuild (ConstEntry.allCols_const X)
  = Some (Done [subVector Vertical (add_const X) 0;
                subVector Vertical (add_const X) 1]).
Proof.
  assert (Hr : 0 <= rows Examples.grid) by (simpl; lia).
  assert (Hc : 0 <= cols Examples.grid) by (simpl; lia).
  assert (Hfr : (Z.to_nat (rows Examples.grid) < 4)%nat) by (simpl; lia).
  assert (Hfc : (Z.to_nat (cols Examples.grid) < 4)%nat) by (simpl; lia).
  split; [repeat split; assumption |].
  exact (proj2 (proj1 (const_ranges ReleaseBuild Examples.ascending Examples.grid 4
                         Hr Hc Hfr Hfc))).
Defined.
